(** * k-netix: the 3D carousel (js/slider3D.js) and the concept cards (js/index.js)

    A shallow embedding of the page scripts and the properties of their
    specification.

    Numbers.  JavaScript has one number type, the IEEE double.  As long
    as its arguments are integers of moderate size, the carousel counter
    [index] only holds integers (it starts at 0 and every change adds an
    integer, see [_normalize_exact]), and it is a [Z] in [Slider3D].  The
    one place where a fraction appears is [halfItems = totalItems / 2]
    inside [_normalize]: for an odd item count it is a half-integer.
    Half-integers are carried exactly as their double ([_normalize2]); the
    rational reading of the same source line is [_normalizeQ], and both
    are shown to agree.

    Doubles hold integers and half-integers exactly up to 53 bits.  Beyond
    that the sums of [goTo] and [_normalize] round, and the counter can
    leave the integers.  The section on [Doubles] transcribes the same
    lines with the rounding of every sum ([round53]), on numbers counted in
    halves; [goTo_double_goTo] and [run_double_run] show that it computes
    what the integer reading computes for targets up to [2^50], and the
    statements that depend on exact sums carry that bound.  Touch
    coordinates ([clientX]) are doubles, given by their rational values,
    and their difference is rounded ([js_sub]).

    The embedding covers sliders with at least one item: with no item at
    all JavaScript computes [NaN], which has no counterpart here, and the
    statements about the counter and the flags carry the hypothesis that
    an item exists. *)

From Stdlib Require Import ZArith QArith Qround Qabs Lia Lqa.
From stdpp Require Import gmap strings list pretty.

Open Scope Z_scope.

Set Warnings "-clear-no-such-hyp".

(** ** JavaScript arithmetic used by the scripts *)

(** [n % m] on integers: the remainder takes the sign of the dividend. *)
Definition js_rem (n m : Z) : Z := Z.rem n m.

(** [const mod = (n, m) => ((n % m) + m) % m]. *)
Definition js_mod (n m : Z) : Z := js_rem (js_rem n m + m) m.

(** [n % m] on rationals: [n - m * trunc (n / m)]. *)
Definition Qtrunc (q : Q) : Z :=
  if Qle_bool 0 q then Qfloor q else Qceiling q.

Definition js_remQ (n m : Q) : Q := (n - m * inject_Z (Qtrunc (n / m)))%Q.

Definition js_modQ (n m : Q) : Q := js_remQ (js_remQ n m + m) m.

(** IEEE doubles.  [round53 n] is the integer [n] rounded to 53 significant
    bits, to the nearest and on a tie to the even one.  Binary rounding
    does not look at the place of the binary point: the double nearest to
    [n / 2^j] is [round53 n / 2^j], for magnitudes below overflow (in the
    subnormal range sums and differences of doubles are exact). *)
Definition round53 (n : Z) : Z :=
  let a := Z.abs n in
  let k := Z.log2 a - 52 in
  if k <=? 0 then n
  else
    let f := Z.div a (2 ^ k) in
    let r := Z.modulo a (2 ^ k) in
    let half := 2 ^ (k - 1) in
    let m :=
      if r <? half then f
      else if half <? r then f + 1
      else if Z.even f then f else f + 1 in
    Z.sgn n * (m * 2 ^ k).

(** [x - y] on doubles given by their rational values: the exact
    difference of two doubles, reduced, has a power of two as denominator,
    and its numerator is rounded. *)
Definition js_sub (x y : Q) : Q :=
  let d := Qred (x - y) in
  round53 (Qnum d) # Qden d.

(** The doubles nearest to 0.1 and to 30.1. *)
Definition double_0_1 : Q := 3602879701896397 # 36028797018963968.

Definition double_30_1 : Q := 4236198399495373 # 140737488355328.

(** Array lengths are below [2^32]. *)
Definition max_array_length : Z := 2 ^ 32 - 1.

(** [Math.ceil(100 / total)].  The quotient of the two doubles is rounded,
    but never onto an integer or across one: it is exact when [total]
    divides 100, it is at least [1 / total] away from every integer when
    [total < 100] does not, and it lies well inside [(0, 1)] when
    [total > 100]. *)
Definition ceil_100_over (total : Z) : Z := Qceiling (100 / inject_Z total)%Q.

(** [number.toString()] of an integer. *)
Definition toString (n : Z) : string := pretty n.

(** ** The carousel *)

Module Carousel.

(** The class list of an element. *)
Definition classList_add (c : string) (el : gset string) : gset string :=
  {[ c ]} ∪ el.

Definition classList_remove (cs : list string) (el : gset string) : gset string :=
  el ∖ list_to_set cs.

(** [arr[i]?.classList.add(c)]: an index outside the array reads
    [undefined] and the optional chain stops there. *)
Definition add_class_at (i : Z) (c : string) (arr : list (gset string))
  : list (gset string) :=
  if bool_decide (0 <= i) then alter (classList_add c) (Z.to_nat i) arr else arr.

(** [arr[i]] for a numeric [i]. *)
Definition js_get {A} (arr : list A) (i : Z) : option A :=
  if bool_decide (0 <= i) then arr !! Z.to_nat i else None.

(** Calls of the navigation methods, in the order they are made.  The log
    is a ghost field: no code reads it. *)
Inductive Call : Type :=
  | CallNext
  | CallPrev
  | CallGoTo (target : Z).

(** The fields of a [Slider3D] instance.  [items] and [indicators] hold the
    class list of each element that [querySelectorAll] returned, in document
    order (the query returns every element once); [nextBtn] and [prevBtn]
    tell whether the control exists; [view_index] is the custom property
    [--view-index] of the root's inline style. *)
Record Slider3D : Type := mkSlider3D {
  items : list (gset string);
  indicators : list (gset string);
  nextBtn : bool;
  prevBtn : bool;
  index : Z;
  pressedKeys : gset string;
  _touchStartX : option Q;
  _touchCurrentX : Q;
  _swipeThreshold : Q;
  view_index : option string;
  calls : list Call
}.

Definition total (s : Slider3D) : Z := Z.of_nat (length (items s)).

Definition with_index (i : Z) (s : Slider3D) : Slider3D :=
  mkSlider3D (items s) (indicators s) (nextBtn s) (prevBtn s) i
    (pressedKeys s) (_touchStartX s) (_touchCurrentX s) (_swipeThreshold s)
    (view_index s) (calls s).

Definition with_pressedKeys (k : gset string) (s : Slider3D) : Slider3D :=
  mkSlider3D (items s) (indicators s) (nextBtn s) (prevBtn s) (index s)
    k (_touchStartX s) (_touchCurrentX s) (_swipeThreshold s)
    (view_index s) (calls s).

Definition with_touch (start : option Q) (current : Q) (s : Slider3D) : Slider3D :=
  mkSlider3D (items s) (indicators s) (nextBtn s) (prevBtn s) (index s)
    (pressedKeys s) start current (_swipeThreshold s)
    (view_index s) (calls s).

Definition log_call (c : Call) (s : Slider3D) : Slider3D :=
  mkSlider3D (items s) (indicators s) (nextBtn s) (prevBtn s) (index s)
    (pressedKeys s) (_touchStartX s) (_touchCurrentX s) (_swipeThreshold s)
    (view_index s) (calls s ++ [c]).

(** [_normalize(number)], twice its value:
    [mod(number + halfItems, totalItems) - halfItems] with every term
    doubled, so that [halfItems] becomes [totalItems].  The sums are exact
    here; they are the sums of the doubles as long as
    [2 * |number| + 4 * totalItems <= 2^53] ([_normalize_double_exact]). *)
Definition _normalize2 (s : Slider3D) (number : Z) : Z :=
  let totalItems := total s in
  js_mod (2 * number + totalItems) (2 * totalItems) - totalItems.

(** [_normalize(number)]; the halving is exact ([_normalize_exact]). *)
Definition _normalize (s : Slider3D) (number : Z) : Z :=
  Z.quot (_normalize2 s number) 2.

(** The same source lines read over the rationals. *)
Definition _normalizeQ (s : Slider3D) (number : Q) : Q :=
  let totalItems := inject_Z (total s) in
  let halfItems := (totalItems / 2)%Q in
  let normalized := (js_modQ (number + halfItems) totalItems - halfItems)%Q in
  normalized.

(** [total * Math.ceil(100 / total)]. *)
Definition rewrap_bound (s : Slider3D) : Z := total s * ceil_100_over (total s).

(** [update()]. *)
Definition update (s : Slider3D) : Slider3D :=
  let current := js_mod (index s) (total s) in
  let next := js_mod (index s + 1) (total s) in
  let previous := js_mod (index s - 1) (total s) in
  let index' :=
    if bool_decide (Z.abs (index s) > rewrap_bound s) then current else index s in
  let cleared :=
    classList_remove ["in-view"; "next-item"; "previous-item"] <$> items s in
  let items' :=
    add_class_at previous "previous-item"
      (add_class_at next "next-item"
         (add_class_at current "in-view" cleared)) in
  let indicators' :=
    add_class_at current "active"
      (classList_remove ["active"] <$> indicators s) in
  mkSlider3D items' indicators' (nextBtn s) (prevBtn s) index'
    (pressedKeys s) (_touchStartX s) (_touchCurrentX s) (_swipeThreshold s)
    (Some (toString index')) (calls s).

(** [goTo(index)], for an integer target.  The difference and the sum are
    exact here; they are those of the doubles for targets and counters up
    to [2^50] ([goTo_double_goTo]). *)
Definition goTo (target : Z) (s : Slider3D) : Slider3D :=
  let s := log_call (CallGoTo target) s in
  let distance := target - index s in
  let distance := _normalize s distance in
  update (with_index (index s + distance) s).

(** [next()] and [prev()]. *)
Definition next (s : Slider3D) : Slider3D :=
  goTo (index s + 1) (log_call CallNext s).

Definition prev (s : Slider3D) : Slider3D :=
  goTo (index s - 1) (log_call CallPrev s).

(** Keyboard: the event is its [key]. *)
Definition _handleKeyDown (key : string) (s : Slider3D) : Slider3D :=
  if bool_decide (key ∈ pressedKeys s) then s
  else
    let s := with_pressedKeys ({[ key ]} ∪ pressedKeys s) s in
    if bool_decide (key = "ArrowLeft") then prev s
    else if bool_decide (key = "ArrowRight") then next s
    else s.

Definition _handleKeyUp (key : string) (s : Slider3D) : Slider3D :=
  with_pressedKeys (pressedKeys s ∖ {[ key ]}) s.

(** Touch: the event is the list of the [clientX] of [event.touches],
    each a double given by its rational value. *)
Definition _handleTouchStart (touches : list Q) (s : Slider3D) : Slider3D :=
  match touches with
  | [x] => with_touch (Some x) x s
  | _ => s
  end.

Definition _handleTouchMove (touches : list Q) (s : Slider3D) : Slider3D :=
  match _touchStartX s, touches with
  | Some start, [x] => with_touch (Some start) x s
  | _, _ => s
  end.

Definition Qgtb (x y : Q) : bool := negb (Qle_bool x y).

Definition _handleTouchEnd (s : Slider3D) : Slider3D :=
  match _touchStartX s with
  | None => s
  | Some start =>
      let deltaX := js_sub (_touchCurrentX s) start in
      let s :=
        if Qgtb (Qabs deltaX) (_swipeThreshold s) then
          if Qgtb deltaX 0 then prev s else next s
        else s in
      with_touch None 0%Q s
  end.

Definition _handleTouchCancel (s : Slider3D) : Slider3D :=
  with_touch None 0%Q s.

(** *** Construction *)

(** The root element, seen through the four queries the constructor makes
    below it: [.item], [.slider-indicators [data-slide-to]],
    [.slider-control-next] and [.slider-control-prev]. *)
Record HTMLElement : Type := mkHTMLElement {
  q_items : list (gset string);
  q_indicators : list (gset string);
  q_nextBtn : bool;
  q_prevBtn : bool
}.

(** [document.querySelector(selector)]. *)
Inductive QueryResult : Type :=
  | Matched (el : HTMLElement)
  | NoMatch
  | InvalidSelector.

Definition Document : Type := string → QueryResult.

(** The argument of [new Slider3D(root)]: a string, an [HTMLElement], or
    any other value. *)
Inductive RootArg : Type :=
  | ArgString (selector : string)
  | ArgHTMLElement (el : HTMLElement)
  | ArgOther.

(** Event listeners, as [addEventListener] records them. *)
Inductive Target : Type :=
  | OnDocument
  | OnRoot
  | OnNextBtn
  | OnPrevBtn
  | OnIndicator (i : nat).

Inductive Handler : Type :=
  | DoNext
  | DoPrev
  | DoGoTo (i : Z)
  | HandleKeyDown
  | HandleKeyUp
  | HandleTouchStart
  | HandleTouchMove
  | HandleTouchEnd
  | HandleTouchCancel.

Record Listener : Type := mkListener {
  l_target : Target;
  l_type : string;
  l_handler : Handler;
  l_passive : bool
}.

(** What a constructor call can throw: the [DOMException] of
    [querySelector] on a malformed selector, and the two [Error]s of the
    constructor, [No element matches selector: ...] and
    [Slider3D requires a selector string or an HTMLElement]. *)
Inductive Thrown : Type :=
  | SyntaxError (selector : string)
  | NoElementMatchesSelector (selector : string)
  | RequiresSelectorOrElement.

Inductive Outcome (A : Type) : Type :=
  | Returned (a : A)
  | Threw (e : Thrown).
Arguments Returned {A} a.
Arguments Threw {A} e.

(** Code that may throw and that registers listeners: the registry is
    threaded through, and is left as it is at the point of a throw. *)
Definition Init (A : Type) : Type := list Listener → Outcome A * list Listener.

Definition ret {A} (a : A) : Init A := λ reg, (Returned a, reg).

Definition throw {A} (e : Thrown) : Init A := λ reg, (Threw e, reg).

Definition bind {A B} (m : Init A) (k : A → Init B) : Init B :=
  λ reg,
    match m reg with
    | (Returned a, reg') => k a reg'
    | (Threw e, reg') => (Threw e, reg')
    end.

#[local] Instance Init_ret : MRet Init := @ret.
#[local] Instance Init_bind : MBind Init := λ A B k m, bind m k.

Definition addEventListener (t : Target) (type : string) (h : Handler)
    (passive : bool) : Init unit :=
  λ reg, (Returned tt, reg ++ [mkListener t type h passive]).

(** [btn?.addEventListener(...)]. *)
Definition addEventListener_opt (present : bool) (t : Target) (type : string)
    (h : Handler) : Init unit :=
  if present then addEventListener t type h false else mret tt.

(** [this.indicators.forEach((indicator, i) => ...)]. *)
Fixpoint bind_indicators (i : nat) (n : nat) : Init unit :=
  match n with
  | O => mret tt
  | S n' =>
      addEventListener (OnIndicator i) "click" (DoGoTo (Z.of_nat i)) false ;;
      bind_indicators (S i) n'
  end.

(** [_bindEvents()]. *)
Definition _bindEvents (s : Slider3D) : Init unit :=
  addEventListener_opt (nextBtn s) OnNextBtn "click" DoNext ;;
  addEventListener_opt (prevBtn s) OnPrevBtn "click" DoPrev ;;
  bind_indicators 0 (length (indicators s)) ;;
  addEventListener OnDocument "keydown" HandleKeyDown false ;;
  addEventListener OnDocument "keyup" HandleKeyUp false ;;
  addEventListener OnRoot "touchstart" HandleTouchStart true ;;
  addEventListener OnRoot "touchmove" HandleTouchMove true ;;
  addEventListener OnRoot "touchend" HandleTouchEnd false ;;
  addEventListener OnRoot "touchcancel" HandleTouchCancel false.

(** The first lines of the constructor: resolving [root]. *)
Definition resolve_root (document : Document) (root : RootArg) : Init HTMLElement :=
  match root with
  | ArgString selector =>
      match document selector with
      | Matched el => mret el
      | NoMatch => throw (NoElementMatchesSelector selector)
      | InvalidSelector => throw (SyntaxError selector)
      end
  | ArgHTMLElement el => mret el
  | ArgOther => throw RequiresSelectorOrElement
  end.

(** The fields as the constructor sets them, before [_bindEvents()] and
    [update()]. *)
Definition fields (el : HTMLElement) : Slider3D :=
  mkSlider3D (q_items el) (q_indicators el) (q_nextBtn el) (q_prevBtn el)
    0 ∅ None 0%Q 30%Q None [].

(** [constructor(root)]. *)
Definition constructor (document : Document) (root : RootArg) : Init Slider3D :=
  el ← resolve_root document root ;
  let this := fields el in
  _bindEvents this ;;
  mret (update this).

(** The instance that [new Slider3D(el)] returns for an element. *)
Definition new (el : HTMLElement) : Slider3D := update (fields el).

(** *** Runs *)

(** What can happen to an instance: a call of a navigation method, or an
    event reaching one of the handlers. *)
Inductive Action : Type :=
  | Next
  | Prev
  | GoTo (target : Z)
  | KeyDown (key : string)
  | KeyUp (key : string)
  | TouchStart (touches : list Q)
  | TouchMove (touches : list Q)
  | TouchEnd
  | TouchCancel.

Definition step (a : Action) (s : Slider3D) : Slider3D :=
  match a with
  | Next => next s
  | Prev => prev s
  | GoTo target => goTo target s
  | KeyDown key => _handleKeyDown key s
  | KeyUp key => _handleKeyUp key s
  | TouchStart touches => _handleTouchStart touches s
  | TouchMove touches => _handleTouchMove touches s
  | TouchEnd => _handleTouchEnd s
  | TouchCancel => _handleTouchCancel s
  end.

Fixpoint run (acts : list Action) (s : Slider3D) : Slider3D :=
  match acts with
  | [] => s
  | a :: acts' => run acts' (step a s)
  end.

(** [next()] called [n] times. *)
Fixpoint next_times (n : nat) (s : Slider3D) : Slider3D :=
  match n with
  | O => s
  | S n' => next_times n' (next s)
  end.

(** *** The counter in IEEE doubles *)

(** The lines of [_normalize], [goTo], [next], [prev] and [update] once
    more, with the rounding of every sum and difference.  Every number is
    counted in halves: the integer [h] stands for the double [h / 2].  The
    remainder [%] of two doubles is exact, and so is [totalItems / 2]. *)
Definition js_add2 (x y : Z) : Z := round53 (x + y).

Definition js_sub2 (x y : Z) : Z := round53 (x - y).

Definition js_mod2 (n m : Z) : Z := js_rem (js_add2 (js_rem n m) m) m.

(** The counter, in halves, and the class lists. *)
Record Doubles : Type := mkDoubles {
  d_index : Z;
  d_items : list (gset string);
  d_indicators : list (gset string)
}.

Definition d_total (d : Doubles) : Z := Z.of_nat (length (d_items d)).

(** [_normalize(number)]. *)
Definition _normalize_double (d : Doubles) (number : Z) : Z :=
  let totalItems := 2 * d_total d in
  let halfItems := d_total d in
  let normalized := js_sub2 (js_mod2 (js_add2 number halfItems) totalItems) halfItems in
  normalized.

(** [arr[i]?.classList.add(c)] for a number [i] counted in halves: only a
    whole number names an element. *)
Definition add_class_at2 (i : Z) (c : string) (arr : list (gset string))
  : list (gset string) :=
  if Z.even i then add_class_at (Z.div i 2) c arr else arr.

(** [update()]. *)
Definition update_double (d : Doubles) : Doubles :=
  let total := 2 * d_total d in
  let current := js_mod2 (d_index d) total in
  let next := js_mod2 (js_add2 (d_index d) 2) total in
  let previous := js_mod2 (js_sub2 (d_index d) 2) total in
  let index' :=
    if bool_decide (Z.abs (d_index d) > 2 * (d_total d * ceil_100_over (d_total d)))
    then current else d_index d in
  let cleared :=
    classList_remove ["in-view"; "next-item"; "previous-item"] <$> d_items d in
  let items' :=
    add_class_at2 previous "previous-item"
      (add_class_at2 next "next-item"
         (add_class_at2 current "in-view" cleared)) in
  let indicators' :=
    add_class_at2 current "active"
      (classList_remove ["active"] <$> d_indicators d) in
  mkDoubles index' items' indicators'.

(** [goTo(index)], the target counted in halves. *)
Definition goTo_double (target : Z) (d : Doubles) : Doubles :=
  let distance := js_sub2 target (d_index d) in
  let distance := _normalize_double d distance in
  update_double
    (mkDoubles (js_add2 (d_index d) distance) (d_items d) (d_indicators d)).

(** [next()] and [prev()]. *)
Definition next_double (d : Doubles) : Doubles :=
  goTo_double (js_add2 (d_index d) 2) d.

Definition prev_double (d : Doubles) : Doubles :=
  goTo_double (js_sub2 (d_index d) 2) d.

(** Calls of the navigation methods with integer targets. *)
Inductive Nav : Type :=
  | NavNext
  | NavPrev
  | NavGoTo (target : Z).

Definition nav_double (n : Nav) (d : Doubles) : Doubles :=
  match n with
  | NavNext => next_double d
  | NavPrev => prev_double d
  | NavGoTo target => goTo_double (2 * target) d
  end.

Fixpoint run_double (navs : list Nav) (d : Doubles) : Doubles :=
  match navs with
  | [] => d
  | n :: navs' => run_double navs' (nav_double n d)
  end.

Definition nav_action (n : Nav) : Action :=
  match n with
  | NavNext => Next
  | NavPrev => Prev
  | NavGoTo target => GoTo target
  end.

(** The counter and the class lists of an instance, as [Doubles]. *)
Definition to_double (s : Slider3D) : Doubles :=
  mkDoubles (2 * index s) (items s) (indicators s).

(** Integers up to [2^50]: the sums of [goTo] on such targets and
    counters are exact in doubles. *)
Definition exact_integer (b : Z) : Prop := Z.abs b <= 2 ^ 50.

Definition exact_action (a : Action) : Prop :=
  match a with
  | GoTo target => exact_integer target
  | _ => True
  end.

Definition exact_nav (n : Nav) : Prop :=
  match n with
  | NavGoTo target => exact_integer target
  | _ => True
  end.

(** The item of [d] at position [i] carries the class [c]. *)
Definition flagged_double (c : string) (d : Doubles) (i : nat) : Prop :=
  ∃ el, d_items d !! i = Some el ∧ c ∈ el.

(** The item at position [i] carries the class [c]. *)
Definition flagged (c : string) (s : Slider3D) (i : nat) : Prop :=
  ∃ el, items s !! i = Some el ∧ c ∈ el.

(** The indicator at position [i] carries the class [c]. *)
Definition indicator_flagged (c : string) (s : Slider3D) (i : nat) : Prop :=
  ∃ el, indicators s !! i = Some el ∧ c ∈ el.

(** The class list [el] of item [i] once [update()] has run with the
    positions [cur], [nxt] and [prv]. *)
Definition item_after (cur nxt prv : Z) (i : nat) (el : gset string) : gset string :=
  (if bool_decide (prv = Z.of_nat i) then {[ "previous-item" ]} else ∅) ∪
  ((if bool_decide (nxt = Z.of_nat i) then {[ "next-item" ]} else ∅) ∪
   ((if bool_decide (cur = Z.of_nat i) then {[ "in-view" ]} else ∅) ∪
    el ∖ {[ "in-view"; "next-item"; "previous-item" ]})).

(** The same for indicator [i]. *)
Definition indicator_after (cur : Z) (i : nat) (el : gset string) : gset string :=
  (if bool_decide (cur = Z.of_nat i) then {[ "active" ]} else ∅) ∪
  el ∖ {[ "active" ]}.

(** What holds of an instance between two calls: it has an item, the
    counter is within the rewrap bound and is the value published on the
    root, the swipe threshold is the constructor's, and the item in view is
    the one the counter denotes. *)
Definition synced (s : Slider3D) : Prop :=
  1 <= total s ∧
  Z.abs (index s) <= rewrap_bound s ∧
  view_index s = Some (toString (index s)) ∧
  _swipeThreshold s = 30%Q ∧
  ∀ i, flagged "in-view" s i ↔ Z.of_nat i = js_mod (index s) (total s).

(** [x] lies in [[-n/2, n/2)], and in [(-n/2, n/2]]. *)
Definition in_centered_range (n x : Z) : Prop := - n <= 2 * x ∧ 2 * x < n.

Definition in_centered_range_upper (n x : Z) : Prop := - n < 2 * x ∧ 2 * x <= n.

(** A slider root with [n] items and [n] indicators, none of them
    flagged, and both controls. *)
Definition plain_root (n : nat) : HTMLElement :=
  mkHTMLElement (replicate n ∅) (replicate n ∅) true true.

(** The listeners that one construction on [el] registers, in the order
    of [_bindEvents()]. *)
Definition listeners_of (el : HTMLElement) : list Listener :=
  (if q_nextBtn el then [mkListener OnNextBtn "click" DoNext false] else []) ++
  (if q_prevBtn el then [mkListener OnPrevBtn "click" DoPrev false] else []) ++
  ((λ i, mkListener (OnIndicator i) "click" (DoGoTo (Z.of_nat i)) false)
     <$> seq 0 (length (q_indicators el))) ++
  [ mkListener OnDocument "keydown" HandleKeyDown false;
    mkListener OnDocument "keyup" HandleKeyUp false;
    mkListener OnRoot "touchstart" HandleTouchStart true;
    mkListener OnRoot "touchmove" HandleTouchMove true;
    mkListener OnRoot "touchend" HandleTouchEnd false;
    mkListener OnRoot "touchcancel" HandleTouchCancel false ].

(** The listeners of a registry that sit on the document. *)
Definition on_document (l : Listener) : bool :=
  match l_target l with
  | OnDocument => true
  | _ => false
  end.

(** An element matched by [document.querySelectorAll]: an [HTMLElement],
    or an element of another kind (an SVG element, say), which
    [instanceof HTMLElement] rejects. *)
Inductive Element : Type :=
  | IsHTMLElement (el : HTMLElement)
  | OtherElement.

Definition arg_of_element (e : Element) : RootArg :=
  match e with
  | IsHTMLElement el => ArgHTMLElement el
  | OtherElement => ArgOther
  end.

(** The [DOMContentLoaded] listener of js/slider3D.js:
    [document.querySelectorAll(".slider-3d").forEach(el => new Slider3D(el))],
    where [matched] is what the query returns.  The script keeps no
    reference to the instances (their listeners do); they are returned here
    so that they can be spoken of. *)
Fixpoint auto_init (document : Document) (matched : list Element)
  : Init (list Slider3D) :=
  match matched with
  | [] => mret []
  | e :: rest =>
      s ← constructor document (arg_of_element e) ;
      ss ← auto_init document rest ;
      mret (s :: ss)
  end.

End Carousel.

(** ** The concept cards and the equation cards *)

Module Cards.

(** An element matched by [.variables] below a card: its [scrollHeight]
    (an integer, computed by the layout) and the [max-height] of its inline
    style. *)
Record Region : Type := mkRegion {
  scrollHeight : Z;
  max_height : option string
}.

(** A [.concept-card] element: its identity, its class list, and what
    [$card.find(".variables")] returns. *)
Record Card : Type := mkCard {
  card_id : nat;
  classList : gset string;
  variables : list Region
}.

(** [$variablesContainer.prop("scrollHeight")]: the property of the first
    matched element, [undefined] when nothing is matched. *)
Definition prop_scrollHeight (rs : list Region) : option Z :=
  scrollHeight <$> head rs.

(** [contentHeight + "px"]. *)
Definition px (contentHeight : option Z) : string :=
  match contentHeight with
  | Some h => toString h +:+ "px"
  | None => "undefinedpx"
  end.

(** [$variablesContainer.css("max-height", v)]: set on every matched
    element. *)
Definition css_max_height (v : string) (rs : list Region) : list Region :=
  (λ r, mkRegion (scrollHeight r) (Some v)) <$> rs.

(** [expandCard($card, $variablesContainer)]. *)
Definition expandCard (c : Card) : Card :=
  let classes := {[ "expanded" ]} ∪ classList c in
  let contentHeight := prop_scrollHeight (variables c) in
  mkCard (card_id c) classes (css_max_height (px contentHeight) (variables c)).

(** [collapseCard($card, $variablesContainer)]. *)
Definition collapseCard (c : Card) : Card :=
  mkCard (card_id c) (classList c ∖ {[ "expanded" ]})
    (css_max_height "0px" (variables c)).

(** [toggleCard($card, $variablesContainer)]. *)
Definition toggleCard (c : Card) : Card :=
  if bool_decide ("expanded" ∈ classList c) then collapseCard c
  else expandCard c.

(** A click, as far as the handlers look at it:
    [$(event.target).closest(".concept-card")[0]]. *)
Record ClickEvent : Type := mkClickEvent {
  closest_concept_card : option nat
}.

(** [shouldHandleClick(event, $card)]. *)
Definition shouldHandleClick (event : ClickEvent) (c : Card) : bool :=
  bool_decide (closest_concept_card event = Some (card_id c)).

(** The delegated click handler of js/index.js, run for the card [c]. *)
Definition on_concept_card_click (event : ClickEvent) (c : Card) : Card :=
  if shouldHandleClick event c then toggleCard c else c.

(** The delegated click handler of the second script, which has no
    guard. *)
Definition on_concept_card_click_unguarded (event : ClickEvent) (c : Card) : Card :=
  toggleCard c.

(** [$card.toggleClass("flipped")] on an equation card. *)
Definition on_equation_card_click (classes : gset string) : gset string :=
  if bool_decide ("flipped" ∈ classes) then classes ∖ {[ "flipped" ]}
  else {[ "flipped" ]} ∪ classes.

(** A collapsed card with one content region of natural height [h]. *)
Definition collapsed_card (h : Z) : Card := mkCard 0 ∅ [mkRegion h None].

End Cards.

Import Carousel.

(** * Properties *)

(** ** Arithmetic *)

Lemma js_mod_modulo (n m : Z) : 0 < m → js_mod n m = n `mod` m.
Proof.
  intros Hm. unfold js_mod, js_rem.
  pose proof (Z.rem_bound_abs n m ltac:(lia)) as Hb.
  rewrite Z.rem_mod_nonneg by lia.
  rewrite <- (Z.mod_add _ 1 m) by lia.
  replace (Z.rem n m + m) with (Z.rem n m + 1 * m) by lia.
  rewrite !Z.mod_add by lia.
  rewrite (Z.quot_rem' n m) at 2.
  rewrite Z.add_comm, Z.mul_comm, Z.mod_add by lia. reflexivity.
Qed.

Lemma js_mod_range (n m : Z) : 0 < m → 0 <= js_mod n m < m.
Proof. intros Hm. rewrite js_mod_modulo by done. by apply Z.mod_pos_bound. Qed.

Lemma ceil_100_over_div (n : Z) : 0 < n → ceil_100_over n = - ((-100) `div` n).
Proof.
  intros Hn. destruct n as [|p|p]; try lia.
  unfold ceil_100_over, Qceiling, Qfloor. simpl. reflexivity.
Qed.

Lemma ceil_100_over_pos (n : Z) : 0 < n → 1 <= ceil_100_over n.
Proof.
  intros Hn. rewrite ceil_100_over_div by done.
  assert ((-100) `div` n < 0) by (apply Z.div_lt_upper_bound; lia). lia.
Qed.

(** ** [_normalize] *)

Lemma _normalize2_closed s d :
  1 <= total s →
  _normalize2 s d = 2 * (d - total s * ((2 * d + total s) `div` (2 * total s))).
Proof.
  intros HN. unfold _normalize2. rewrite js_mod_modulo by lia.
  rewrite Z.mod_eq by lia. lia.
Qed.

Lemma _normalize_closed s d :
  1 <= total s →
  _normalize s d = d - total s * ((2 * d + total s) `div` (2 * total s)).
Proof.
  intros HN. unfold _normalize. rewrite _normalize2_closed by done.
  rewrite Z.mul_comm. apply Z.quot_mul. lia.
Qed.

Lemma _normalize_exact s d : 1 <= total s → _normalize2 s d = 2 * _normalize s d.
Proof.
  intros HN. by rewrite _normalize2_closed, _normalize_closed.
Qed.

Lemma _normalize_range s d :
  1 <= total s → - total s <= 2 * _normalize s d < total s.
Proof.
  intros HN. rewrite <- _normalize_exact by done. unfold _normalize2.
  pose proof (js_mod_range (2 * d + total s) (2 * total s) ltac:(lia)). lia.
Qed.

Lemma _normalize_congruent s d :
  1 <= total s → (_normalize s d) `mod` total s = d `mod` total s.
Proof.
  intros HN. rewrite _normalize_closed by done.
  replace (d - total s * ((2 * d + total s) `div` (2 * total s)))
    with (d + (- ((2 * d + total s) `div` (2 * total s))) * total s) by lia.
  apply Z.mod_add. lia.
Qed.

(** ** [update] *)

Lemma length_add_class_at i c arr : length (add_class_at i c arr) = length arr.
Proof. unfold add_class_at. case_bool_decide; [apply length_alter | done]. Qed.

Lemma total_update s : total (update s) = total s.
Proof.
  unfold total, update. simpl.
  by rewrite !length_add_class_at, length_fmap.
Qed.

Lemma rewrap_bound_update s : rewrap_bound (update s) = rewrap_bound s.
Proof. unfold rewrap_bound. by rewrite total_update. Qed.

Lemma index_update s :
  index (update s) =
  if bool_decide (Z.abs (index s) > rewrap_bound s)
  then js_mod (index s) (total s) else index s.
Proof. reflexivity. Qed.

Lemma rewrap_bound_ge_total s : 1 <= total s → total s <= rewrap_bound s.
Proof.
  intros HN. unfold rewrap_bound.
  pose proof (ceil_100_over_pos (total s) ltac:(lia)). nia.
Qed.

Lemma index_update_bounded s :
  1 <= total s → Z.abs (index (update s)) <= rewrap_bound s.
Proof.
  intros HN. rewrite index_update. case_bool_decide; [|lia].
  pose proof (js_mod_range (index s) (total s) ltac:(lia)).
  pose proof (rewrap_bound_ge_total s HN). lia.
Qed.

Lemma index_update_congruent s :
  1 <= total s → index (update s) `mod` total s = index s `mod` total s.
Proof.
  intros HN. rewrite index_update. case_bool_decide; [|done].
  rewrite js_mod_modulo by lia. apply Z.mod_mod. lia.
Qed.

Lemma lookup_add_class_at j c (arr : list (gset string)) (i : nat) :
  add_class_at j c arr !! i =
  (λ el, if bool_decide (j = Z.of_nat i) then classList_add c el else el)
    <$> arr !! i.
Proof.
  unfold add_class_at. case_bool_decide as Hj.
  - rewrite list_lookup_alter. case_decide as Hi.
    + subst i. rewrite bool_decide_true by lia. done.
    + rewrite bool_decide_false by lia. by destruct (arr !! i).
  - rewrite bool_decide_false by lia. by destruct (arr !! i).
Qed.

Lemma lookup_items_update s (i : nat) :
  items (update s) !! i =
  item_after (js_mod (index s) (total s)) (js_mod (index s + 1) (total s))
    (js_mod (index s - 1) (total s)) i <$> items s !! i.
Proof.
  unfold update; simpl. rewrite !lookup_add_class_at, list_lookup_fmap.
  destruct (items s !! i) as [el|]; simpl; [|done]. f_equal.
  unfold item_after, classList_add, classList_remove.
  repeat case_bool_decide; set_solver.
Qed.

Lemma lookup_indicators_update s (i : nat) :
  indicators (update s) !! i =
  indicator_after (js_mod (index s) (total s)) i <$> indicators s !! i.
Proof.
  unfold update; simpl. rewrite lookup_add_class_at, list_lookup_fmap.
  destruct (indicators s !! i) as [el|]; simpl; [|done]. f_equal.
  unfold indicator_after, classList_add, classList_remove.
  case_bool_decide; set_solver.
Qed.

Lemma js_mod_index_update s k :
  1 <= total s →
  js_mod (index (update s) + k) (total s) = js_mod (index s + k) (total s).
Proof.
  intros HN. rewrite !js_mod_modulo by lia.
  rewrite <- Zplus_mod_idemp_l, index_update_congruent by done.
  by rewrite Zplus_mod_idemp_l.
Qed.

Lemma js_mod_index_update_0 s :
  1 <= total s →
  js_mod (index (update s)) (total s) = js_mod (index s) (total s).
Proof.
  intros HN. pose proof (js_mod_index_update s 0 HN) as H.
  by rewrite !Z.add_0_r in H.
Qed.

Lemma flagged_in_view_update s i :
  1 <= total s →
  flagged "in-view" (update s) i ↔ Z.of_nat i = js_mod (index s) (total s).
Proof.
  intros HN. unfold flagged. rewrite lookup_items_update. split.
  - intros (el' & Hl & Hin).
    destruct (items s !! i) as [el|]; simplify_eq/=.
    unfold item_after in Hin.
    destruct (decide (js_mod (index s) (total s) = Z.of_nat i)) as [Hc|Hc];
      [done|exfalso].
    rewrite (bool_decide_false _ Hc) in Hin.
    repeat case_bool_decide; set_unfold in Hin; naive_solver.
  - intros Hi.
    pose proof (js_mod_range (index s) (total s) ltac:(lia)) as Hr.
    destruct (lookup_lt_is_Some_2 (items s) i) as [el Hel].
    { unfold total in *. lia. }
    rewrite Hel. simpl. eexists; split; [reflexivity|].
    unfold item_after. rewrite (bool_decide_true (js_mod (index s) (total s) = Z.of_nat i)) by lia.
    set_solver.
Qed.

Lemma synced_update s :
  1 <= total s → _swipeThreshold s = 30%Q → synced (update s).
Proof.
  intros HN Ht. unfold synced.
  rewrite total_update, rewrap_bound_update.
  split; [done|]. split; [by apply index_update_bounded|].
  split; [done|]. split; [done|].
  intros i. rewrite js_mod_index_update_0 by done.
  by apply flagged_in_view_update.
Qed.

Lemma synced_goTo b s : synced s → synced (goTo b s).
Proof.
  intros (HN & _ & _ & Ht & _). unfold goTo. by apply synced_update.
Qed.

Lemma synced_next s : synced s → synced (next s).
Proof. intros (HN & Hb & Hv & Ht & Hf). unfold next. by apply synced_goTo. Qed.

Lemma synced_prev s : synced s → synced (prev s).
Proof. intros (HN & Hb & Hv & Ht & Hf). unfold prev. by apply synced_goTo. Qed.

Lemma synced_step a s : synced s → synced (step a s).
Proof.
  intros Hs. destruct a as [| |b|key|key|ts|ts| |]; simpl.
  - by apply synced_next.
  - by apply synced_prev.
  - by apply synced_goTo.
  - unfold _handleKeyDown. repeat case_bool_decide; try done.
    + apply synced_prev. by destruct Hs as (?&?&?&?&?).
    + apply synced_next. by destruct Hs as (?&?&?&?&?).
  - done.
  - unfold _handleTouchStart. by destruct ts as [|x [|]].
  - unfold _handleTouchMove.
    by destruct (_touchStartX s), ts as [|x [|]].
  - unfold _handleTouchEnd. destruct (_touchStartX s) as [start|]; [|done].
    repeat case_match.
    + by pose proof (synced_prev s Hs) as (?&?&?&?&?).
    + by pose proof (synced_next s Hs) as (?&?&?&?&?).
    + by destruct Hs as (?&?&?&?&?).
  - done.
Qed.

Lemma synced_new el : (1 <= length (q_items el))%nat → synced (new el).
Proof.
  intros HN. apply synced_update; [|done]. unfold total; simpl. lia.
Qed.

Lemma synced_run acts s : synced s → synced (run acts s).
Proof.
  revert s. induction acts as [|a acts IH]; intros s Hs; simpl; [done|].
  by apply IH, synced_step.
Qed.

Lemma total_goTo b s : total (goTo b s) = total s.
Proof. unfold goTo. by rewrite total_update. Qed.

Lemma total_next s : total (next s) = total s.
Proof. unfold next. by rewrite total_goTo. Qed.

Lemma total_prev s : total (prev s) = total s.
Proof. unfold prev. by rewrite total_goTo. Qed.

Lemma total_step a s : total (step a s) = total s.
Proof.
  destruct a as [| |b|key|key|ts|ts| |]; simpl;
    auto using total_goTo, total_next, total_prev.
  - unfold _handleKeyDown. repeat case_bool_decide; try done.
    + by rewrite total_prev.
    + by rewrite total_next.
  - unfold _handleTouchStart. by destruct ts as [|x [|]].
  - unfold _handleTouchMove. by destruct (_touchStartX s), ts as [|x [|]].
  - unfold _handleTouchEnd. destruct (_touchStartX s) as [start|]; [|done].
    repeat case_match; [apply total_prev|apply total_next|done].
Qed.

Lemma total_run acts s : total (run acts s) = total s.
Proof.
  revert s. induction acts as [|a acts IH]; intros s; simpl; [done|].
  by rewrite IH, total_step.
Qed.

(** ** [goTo], [next] and [prev] *)

Lemma goTo_unfold b s :
  goTo b s =
  update (with_index (index s + _normalize s (b - index s))
            (log_call (CallGoTo b) s)).
Proof. reflexivity. Qed.

Lemma index_goTo_no_rewrap b s :
  Z.abs (index s + _normalize s (b - index s)) <= rewrap_bound s →
  index (goTo b s) = index s + _normalize s (b - index s).
Proof.
  intros Hb. rewrite goTo_unfold, index_update.
  rewrite bool_decide_false; [done|].
  change (rewrap_bound (with_index _ _)) with (rewrap_bound s).
  change (index (with_index ?i _)) with i. lia.
Qed.

Lemma index_goTo_mod b s :
  1 <= total s → index (goTo b s) `mod` total s = b `mod` total s.
Proof.
  intros HN. rewrite goTo_unfold.
  set (s' := with_index _ _).
  change (total s) with (total s'). rewrite index_update_congruent by done.
  subst s'. change (total (with_index _ _)) with (total s).
  change (index (with_index ?i _)) with i.
  rewrite <- Zplus_mod_idemp_r, _normalize_congruent by done.
  rewrite Zplus_mod_idemp_r. f_equal. lia.
Qed.

(** C1, as amended.  For every slider with [N >= 1] items and all integers
    [a = index] and [b]: [goTo(b)] adds to [index] the normalized distance
    [_normalize(b - a)], which lies in [[-N/2, N/2)]; the sum is what
    [update()] receives, and it is the net change of [index] whenever the
    sum stays within the rewrap bound [N * ceil(100/N)].  In particular
    [_normalize] always returns a value in [[-N/2, N/2)]. *)
Theorem goTo_normalized_range s b :
  1 <= total s →
  let d := _normalize s (b - index s) in
  in_centered_range (total s) d ∧
  goTo b s = update (with_index (index s + d) (log_call (CallGoTo b) s)) ∧
  (Z.abs (index s + d) <= rewrap_bound s → index (goTo b s) - index s = d) ∧
  ∀ n, in_centered_range (total s) (_normalize s n).
Proof.
  intros HN d. split; [apply _normalize_range; done|].
  split; [done|]. split.
  - intros Hb. subst d. rewrite index_goTo_no_rewrap by done. lia.
  - intros n. by apply _normalize_range.
Qed.

Lemma goTo_normalized_range_witness :
  let s := new (plain_root 4) in
  1 <= total s ∧ in_centered_range (total s) (_normalize s (2 - index s)) ∧
  index (goTo 2 s) - index s = -2.
Proof.
  intros s.
  assert (HN : 1 <= total s) by (vm_compute; discriminate).
  destruct (goTo_normalized_range s 2 HN) as (Hr & _ & Hi & _).
  split; [exact HN|]. split; [exact Hr|].
  apply Hi. vm_compute; discriminate.
Defined.

(** C1 as stated fails at the lower end of the range: with two items,
    [goTo(1)] from [index = 0] moves [index] by [-1 = -N/2], which is not in
    [(-N/2, N/2]]. *)
Lemma goTo_range_counterexample :
  let s := new (plain_root 2) in
  total s = 2 ∧ index s = 0 ∧ index (goTo 1 s) - index s = -1 ∧
  _normalize s (1 - index s) = -1 ∧
  ¬ in_centered_range_upper (total s) (index (goTo 1 s) - index s) ∧
  ¬ in_centered_range_upper (total s) (_normalize s (1 - index s)).
Proof.
  repeat split; try reflexivity; unfold in_centered_range_upper;
    vm_compute; intros [H _]; discriminate H.
Qed.

(** ** [update] twice, and the bound *)

Lemma Slider3D_eq s1 s2 :
  items s1 = items s2 → indicators s1 = indicators s2 →
  nextBtn s1 = nextBtn s2 → prevBtn s1 = prevBtn s2 → index s1 = index s2 →
  pressedKeys s1 = pressedKeys s2 → _touchStartX s1 = _touchStartX s2 →
  _touchCurrentX s1 = _touchCurrentX s2 →
  _swipeThreshold s1 = _swipeThreshold s2 → view_index s1 = view_index s2 →
  calls s1 = calls s2 → s1 = s2.
Proof. destruct s1, s2; simpl; intros; by subst. Qed.

Lemma index_update_update s :
  1 <= total s → index (update (update s)) = index (update s).
Proof.
  intros HN. rewrite (index_update (update s)).
  rewrite bool_decide_false; [done|].
  rewrite rewrap_bound_update. pose proof (index_update_bounded s HN). lia.
Qed.

Lemma update_idempotent s : 1 <= total s → update (update s) = update s.
Proof.
  intros HN. pose proof (index_update_update s HN) as Hi.
  apply Slider3D_eq; try done.
  - apply list_eq; intros i. rewrite (lookup_items_update (update s)).
    rewrite total_update, !js_mod_index_update, js_mod_index_update_0 by done.
    replace (index (update s) - 1) with (index (update s) + -1) by lia.
    rewrite js_mod_index_update by done.
    replace (index s + -1) with (index s - 1) by lia.
    rewrite lookup_items_update.
    destruct (items s !! i) as [el|]; simpl; [|done]. f_equal.
    unfold item_after. repeat case_bool_decide; set_solver.
  - apply list_eq; intros i. rewrite (lookup_indicators_update (update s)).
    rewrite total_update, js_mod_index_update_0 by done.
    rewrite lookup_indicators_update.
    destruct (indicators s !! i) as [el|]; simpl; [|done]. f_equal.
    unfold indicator_after. repeat case_bool_decide; set_solver.
  - change (view_index (update ?x)) with (Some (toString (index (update x)))).
    by rewrite Hi.
Qed.

(** C7.  Calling [update()] twice in succession leaves the instance as the
    first call left it: the same items carry [in-view], [next-item] and
    [previous-item], and the same indicator carries [active]. *)
Theorem update_twice s :
  1 <= total s →
  update (update s) = update s ∧
  (∀ c i, flagged c (update (update s)) i ↔ flagged c (update s) i) ∧
  (∀ c i, indicator_flagged c (update (update s)) i ↔
          indicator_flagged c (update s) i).
Proof.
  intros HN. rewrite update_idempotent by done. done.
Qed.

Lemma update_twice_witness :
  let s := with_index 5 (new (plain_root 3)) in
  1 <= total s ∧ update (update s) = update s.
Proof.
  intros s. assert (HN : 1 <= total s) by (vm_compute; discriminate).
  split; [exact HN|]. exact (proj1 (update_twice s HN)).
Defined.

(** C10.  For every slider with [N >= 1] items, after every [goTo], [next]
    or [prev] call, and after construction followed by any run of calls and
    events, [|index| <= N * ceil(100/N)], and the value published on the
    root's [--view-index] is that [index]. *)
Theorem index_within_rewrap_bound :
  (∀ s b, 1 <= total s →
     Z.abs (index (goTo b s)) <= total s * ceil_100_over (total s) ∧
     Z.abs (index (next s)) <= total s * ceil_100_over (total s) ∧
     Z.abs (index (prev s)) <= total s * ceil_100_over (total s)) ∧
  (∀ el acts, (1 <= length (q_items el))%nat →
     let s := run acts (new el) in
     Z.abs (index s) <= total s * ceil_100_over (total s) ∧
     view_index s = Some (toString (index s))).
Proof.
  split.
  - intros s b HN. repeat split.
    + exact (index_update_bounded
        (with_index (index s + _normalize s (b - index s))
           (log_call (CallGoTo b) s)) HN).
    + exact (index_update_bounded
        (with_index (index s + _normalize s (index s + 1 - index s))
           (log_call (CallGoTo (index s + 1)) (log_call CallNext s))) HN).
    + exact (index_update_bounded
        (with_index (index s + _normalize s (index s - 1 - index s))
           (log_call (CallGoTo (index s - 1)) (log_call CallPrev s))) HN).
  - intros el acts HN s.
    destruct (synced_run acts (new el) (synced_new el HN)) as (_ & Hb & Hv & _).
    done.
Qed.

Lemma index_within_rewrap_bound_witness :
  let s := next_times 102 (new (plain_root 3)) in
  1 <= total s ∧ index s = 102 ∧ total s * ceil_100_over (total s) = 102 ∧
  Z.abs (index (next s)) <= total s * ceil_100_over (total s).
Proof.
  intros s. assert (HN : 1 <= total s) by (vm_compute; discriminate).
  split; [exact HN|]. split; [vm_compute; reflexivity|].
  split; [vm_compute; reflexivity|].
  exact (proj1 (proj2 (proj1 index_within_rewrap_bound s 0 HN))).
Defined.

(** ** Rewrap and wraparound *)

Lemma next_unfold s :
  next s =
  update (with_index (index s + _normalize s 1)
            (log_call (CallGoTo (index s + 1)) (log_call CallNext s))).
Proof.
  unfold next. rewrite goTo_unfold.
  change (index (log_call CallNext s)) with (index s).
  by replace (index s + 1 - index s) with 1 by lia.
Qed.

Lemma prev_unfold s :
  prev s =
  update (with_index (index s + _normalize s (-1))
            (log_call (CallGoTo (index s - 1)) (log_call CallPrev s))).
Proof.
  unfold prev. rewrite goTo_unfold.
  change (index (log_call CallPrev s)) with (index s).
  by replace (index s - 1 - index s) with (-1) by lia.
Qed.

Lemma js_mod_index_next s :
  1 <= total s →
  js_mod (index (next s)) (total s) = js_mod (index s + 1) (total s).
Proof.
  intros HN. unfold next.
  pose proof (index_goTo_mod (index s + 1) (log_call CallNext s) HN) as H.
  change (total (log_call CallNext s)) with (total s) in H.
  by rewrite !js_mod_modulo by lia.
Qed.




Lemma _normalize_one s : 3 <= total s → _normalize s 1 = 1.
Proof.
  intros HN. rewrite _normalize_closed by lia.
  rewrite Z.div_small by lia. lia.
Qed.


Lemma next_times_S n s : next_times (S n) s = next (next_times n s).
Proof.
  revert s. induction n as [|n IH]; intros s; [done|].
  change (next_times (S (S n)) s) with (next_times (S n) (next s)).
  by rewrite IH.
Qed.

Lemma total_next_times n s : total (next_times n s) = total s.
Proof.
  revert s. induction n as [|n IH]; intros s; simpl; [done|].
  by rewrite IH, total_next.
Qed.

Lemma rewrap_bound_next s : rewrap_bound (next s) = rewrap_bound s.
Proof. unfold rewrap_bound. by rewrite total_next. Qed.

Lemma index_next_in_bound s :
  3 <= total s → Z.abs (index s + 1) <= rewrap_bound s →
  index (next s) = index s + 1.
Proof.
  intros HN Hb. rewrite next_unfold, index_update.
  change (rewrap_bound (with_index _ _)) with (rewrap_bound s).
  change (index (with_index ?i _)) with i.
  rewrite _normalize_one by done. by rewrite bool_decide_false by lia.
Qed.

Lemma index_next_times n s :
  3 <= total s → - rewrap_bound s <= index s →
  index s + Z.of_nat n <= rewrap_bound s →
  index (next_times n s) = index s + Z.of_nat n.
Proof.
  revert s. induction n as [|n IH]; intros s HN Hlo Hhi; simpl; [lia|].
  assert (index (next s) = index s + 1) as Hi
    by (apply index_next_in_bound; [done|lia]).
  rewrite IH; rewrite ?total_next, ?rewrap_bound_next, ?Hi; lia.
Qed.






(** ** The counter in doubles *)

(** Below [2^53] nothing is rounded, and the lines of [Doubles] compute
    what the integer reading computes. *)
Lemma round53_exact (n : Z) : Z.abs n < 2 ^ 53 → round53 n = n.
Proof.
  intros Hn. unfold round53.
  assert (Z.log2 (Z.abs n) - 52 <= 0) as Hk.
  { destruct (decide (Z.abs n = 0)) as [->|Hne]; [done|].
    assert (Z.log2 (Z.abs n) < 53) by (apply Z.log2_lt_pow2; lia). lia. }
  apply Z.leb_le in Hk. by rewrite Hk.
Qed.

Lemma js_add2_exact (x y : Z) : Z.abs (x + y) < 2 ^ 53 → js_add2 x y = x + y.
Proof. apply round53_exact. Qed.

Lemma js_sub2_exact (x y : Z) : Z.abs (x - y) < 2 ^ 53 → js_sub2 x y = x - y.
Proof. apply round53_exact. Qed.

Lemma js_mod2_exact (x m : Z) :
  0 < m → 2 * m <= 2 ^ 53 → js_mod2 x m = js_mod x m.
Proof.
  intros Hm Hb. unfold js_mod2, js_mod, js_rem.
  pose proof (Z.rem_bound_abs x m ltac:(lia)) as Hr.
  rewrite js_add2_exact by lia. done.
Qed.

Lemma js_mod_double (a m : Z) :
  0 < m → js_mod (2 * a) (2 * m) = 2 * js_mod a m.
Proof.
  intros Hm. rewrite !js_mod_modulo by lia.
  apply Z.mul_mod_distr_l; lia.
Qed.

Lemma rewrap_bound_upper s : 1 <= total s → rewrap_bound s < 100 + total s.
Proof.
  intros HN. unfold rewrap_bound. rewrite ceil_100_over_div by lia.
  pose proof (Z.div_mod (-100) (total s) ltac:(lia)) as Hdm.
  pose proof (Z.mod_pos_bound (-100) (total s) ltac:(lia)) as Hb.
  nia.
Qed.

Lemma _normalize_double_exact s (d : Z) :
  1 <= total s → 2 * Z.abs d + 4 * total s <= 2 ^ 53 →
  _normalize_double (to_double s) (2 * d) = 2 * _normalize s d.
Proof.
  intros HN Hd. rewrite <- _normalize_exact by done.
  unfold _normalize_double, _normalize2.
  change (d_total (to_double s)) with (total s).
  rewrite js_add2_exact by lia. rewrite js_mod2_exact by lia.
  pose proof (js_mod_range (2 * d + total s) (2 * total s) ltac:(lia)) as Hr.
  by rewrite js_sub2_exact by lia.
Qed.

Lemma add_class_at2_double (c : Z) cls arr :
  add_class_at2 (2 * c) cls arr = add_class_at c cls arr.
Proof.
  unfold add_class_at2. rewrite Z.even_mul. simpl.
  by rewrite Z.mul_comm, Z.div_mul by lia.
Qed.

Lemma update_double_update s :
  1 <= total s → 2 * Z.abs (index s) + 4 * total s <= 2 ^ 53 →
  update_double (to_double s) = to_double (update s).
Proof.
  intros HN Hb.
  assert (H1 : Z.abs (2 * index s + 2) < 2 ^ 53) by lia.
  assert (H2 : Z.abs (2 * index s - 2) < 2 ^ 53) by lia.
  assert (H3 : 0 < 2 * total s) by lia.
  assert (H4 : 2 * (2 * total s) <= 2 ^ 53) by lia.
  assert (H5 : 0 < total s) by lia.
  assert (Hcur : js_mod2 (2 * index s) (2 * total s) =
                 2 * js_mod (index s) (total s))
    by (by rewrite (js_mod2_exact _ _ H3 H4), (js_mod_double _ _ H5)).
  assert (Hnxt : js_mod2 (js_add2 (2 * index s) 2) (2 * total s) =
                 2 * js_mod (index s + 1) (total s)).
  { rewrite (js_add2_exact _ _ H1), (js_mod2_exact _ _ H3 H4).
    replace (2 * index s + 2) with (2 * (index s + 1)) by lia.
    apply js_mod_double, H5. }
  assert (Hprv : js_mod2 (js_sub2 (2 * index s) 2) (2 * total s) =
                 2 * js_mod (index s - 1) (total s)).
  { rewrite (js_sub2_exact _ _ H2), (js_mod2_exact _ _ H3 H4).
    replace (2 * index s - 2) with (2 * (index s - 1)) by lia.
    apply js_mod_double, H5. }
  unfold update_double.
  change (d_total (to_double s)) with (total s).
  change (d_index (to_double s)) with (2 * index s).
  change (d_items (to_double s)) with (items s).
  change (d_indicators (to_double s)) with (indicators s).
  rewrite Hcur, Hnxt, Hprv, !add_class_at2_double.
  change (to_double (update s))
    with (mkDoubles (2 * index (update s)) (items (update s))
            (indicators (update s))).
  f_equal. rewrite index_update. unfold rewrap_bound.
  destruct (decide (Z.abs (index s) > total s * ceil_100_over (total s)))
    as [Hgt|Hle].
  - rewrite (bool_decide_true _ Hgt).
    assert (Hgt2 : Z.abs (2 * index s) > 2 * (total s * ceil_100_over (total s)))
      by lia.
    by rewrite (bool_decide_true _ Hgt2).
  - rewrite (bool_decide_false _ Hle).
    assert (Hle2 : ¬ Z.abs (2 * index s) > 2 * (total s * ceil_100_over (total s)))
      by lia.
    by rewrite (bool_decide_false _ Hle2).
Qed.

Lemma goTo_double_goTo s (b : Z) :
  1 <= total s →
  2 * (Z.abs b + Z.abs (index s)) + 5 * total s <= 2 ^ 53 →
  goTo_double (2 * b) (to_double s) = to_double (goTo b s).
Proof.
  intros HN Hb. rewrite goTo_unfold. unfold goTo_double.
  change (d_index (to_double s)) with (2 * index s).
  rewrite js_sub2_exact by lia.
  replace (2 * b - 2 * index s) with (2 * (b - index s)) by lia.
  rewrite _normalize_double_exact by lia.
  pose proof (_normalize_range s (b - index s) HN) as Hr.
  rewrite js_add2_exact by lia.
  replace (2 * index s + 2 * _normalize s (b - index s))
    with (2 * (index s + _normalize s (b - index s))) by lia.
  set (s' := with_index _ _).
  change (mkDoubles (2 * (index s + _normalize s (b - index s)))
            (d_items (to_double s)) (d_indicators (to_double s)))
    with (to_double s').
  apply update_double_update; [done|].
  change (index s') with (index s + _normalize s (b - index s)).
  change (total s') with (total s). lia.
Qed.

Lemma next_double_next s :
  1 <= total s → 4 * Z.abs (index s) + 5 * total s + 2 <= 2 ^ 53 →
  next_double (to_double s) = to_double (next s).
Proof.
  intros HN Hb. unfold next_double, next.
  change (d_index (to_double s)) with (2 * index s).
  rewrite js_add2_exact by lia.
  replace (2 * index s + 2) with (2 * (index s + 1)) by lia.
  change (to_double s) with (to_double (log_call CallNext s)).
  apply goTo_double_goTo; [done|].
  change (index (log_call CallNext s)) with (index s).
  change (total (log_call CallNext s)) with (total s). lia.
Qed.

Lemma prev_double_prev s :
  1 <= total s → 4 * Z.abs (index s) + 5 * total s + 2 <= 2 ^ 53 →
  prev_double (to_double s) = to_double (prev s).
Proof.
  intros HN Hb. unfold prev_double, prev.
  change (d_index (to_double s)) with (2 * index s).
  rewrite js_sub2_exact by lia.
  replace (2 * index s - 2) with (2 * (index s - 1)) by lia.
  change (to_double s) with (to_double (log_call CallPrev s)).
  apply goTo_double_goTo; [done|].
  change (index (log_call CallPrev s)) with (index s).
  change (total (log_call CallPrev s)) with (total s). lia.
Qed.

Lemma nav_double_step n s :
  synced s → total s <= max_array_length → exact_nav n →
  nav_double n (to_double s) = to_double (step (nav_action n) s).
Proof.
  intros (HN & Hb & _) Hmax Hn.
  pose proof (rewrap_bound_upper s HN) as Hu.
  unfold max_array_length in Hmax.
  destruct n as [| |b]; simpl.
  - apply next_double_next; [done|lia].
  - apply prev_double_prev; [done|lia].
  - unfold exact_nav, exact_integer in Hn.
    apply goTo_double_goTo; [done|lia].
Qed.

Lemma run_double_run_from navs s :
  synced s → total s <= max_array_length → Forall exact_nav navs →
  run_double navs (to_double s) = to_double (run (nav_action <$> navs) s).
Proof.
  revert s. induction navs as [|n navs IH]; intros s Hs Hmax Hn; [done|].
  apply Forall_cons in Hn as [Hn Hns]. simpl.
  rewrite nav_double_step by done.
  apply IH; [by apply synced_step|by rewrite total_step|done].
Qed.

Lemma run_double_run el navs :
  (1 <= length (q_items el))%nat →
  Z.of_nat (length (q_items el)) <= max_array_length →
  Forall exact_nav navs →
  run_double navs (to_double (new el)) =
  to_double (run (nav_action <$> navs) (new el)).
Proof.
  intros HN Hmax Hn. apply run_double_run_from; [by apply synced_new| |done].
  unfold new. rewrite total_update. exact Hmax.
Qed.

(** C2, as amended.  For every slider with [N >= 1] items and all integers
    [a = index] and [b] of magnitude at most [2^50]: [goTo(b)] changes
    [index] by a value congruent to [b - a] modulo [N], so the resulting
    [index] is congruent to [b] modulo [N] (also when [update()] rewraps
    the counter); for an array of items the doubles compute that very
    counter, with no rounding. *)
Theorem goTo_congruent s b :
  1 <= total s →
  exact_integer (index s) → exact_integer b →
  js_mod (index (goTo b s) - index s) (total s) = js_mod (b - index s) (total s) ∧
  js_mod (index (goTo b s)) (total s) = js_mod b (total s) ∧
  (total s <= max_array_length →
   goTo_double (2 * b) (to_double s) = to_double (goTo b s)).
Proof.
  intros HN Ha Hb. rewrite !js_mod_modulo by lia.
  pose proof (index_goTo_mod b s HN) as Hc. split; [|split; [done|]].
  - rewrite Zminus_mod, Hc. by rewrite <- Zminus_mod.
  - intros Hmax. apply goTo_double_goTo; [done|].
    unfold exact_integer, max_array_length in *. lia.
Qed.

Lemma goTo_congruent_witness :
  let s := next_times 102 (new (plain_root 3)) in
  1 <= total s ∧ index s = 102 ∧ index (goTo 103 s) = 1 ∧
  js_mod (index (goTo 103 s)) (total s) = js_mod 103 (total s) ∧
  d_index (goTo_double (2 * 103) (to_double s)) = 2 * 1.
Proof.
  intros s.
  assert (HN : 1 <= total s) by (vm_compute; discriminate).
  assert (Ha : exact_integer (index s)) by (vm_compute; discriminate).
  assert (Hb : exact_integer 103) by (vm_compute; discriminate).
  assert (Hi : index (goTo 103 s) = 1) by (vm_compute; reflexivity).
  destruct (goTo_congruent s 103 HN Ha Hb) as (_ & Hm & Hd).
  split; [exact HN|]. split; [vm_compute; reflexivity|].
  split; [exact Hi|]. split; [exact Hm|].
  rewrite Hd by (vm_compute; discriminate).
  change (d_index (to_double (goTo 103 s))) with (2 * index (goTo 103 s)).
  by rewrite Hi.
Defined.

(** C2 as stated, for all integers, fails where the doubles round.  With
    three items and [index = 0], [goTo(2^52 + 1)]: the target is a double,
    the distance [2^52 + 1] too, but [number + halfItems = 2^52 + 2.5] is
    not and rounds to [2^52 + 2], a multiple of 3, so [_normalize] returns
    [0 - 1.5] and [index] becomes [-1.5] ([-3] in halves), which differs
    from the target by no multiple of 3. *)
Lemma goTo_congruent_counterexample :
  let s := new (plain_root 3) in
  let b := 2 ^ 52 + 1 in
  let d := goTo_double (2 * b) (to_double s) in
  total s = 3 ∧ index s = 0 ∧ round53 b = b ∧
  js_add2 (2 * b) (d_total (to_double s)) = 2 * (2 ^ 52 + 2) ∧
  _normalize_double (to_double s) (2 * b) = -3 ∧
  d_index d = -3 ∧
  ¬ (∃ k : Z, d_index d - 2 * b = 2 * (k * total s)) ∧
  ¬ (∃ k : Z, d_index d - d_index (to_double s) - 2 * (b - index s)
              = 2 * (k * total s)).
Proof.
  intros s b d.
  assert (Ht : total s = 3) by (vm_compute; reflexivity).
  assert (Hi : index s = 0) by (vm_compute; reflexivity).
  assert (Hd : d_index d = -3) by (vm_compute; reflexivity).
  split; [exact Ht|]. split; [exact Hi|]. split; [vm_compute; reflexivity|].
  split; [vm_compute; reflexivity|]. split; [vm_compute; reflexivity|].
  split; [exact Hd|].
  change (d_index (to_double s)) with (2 * index s).
  rewrite Hd, Ht, Hi. split; intros [k Hk]; lia.
Qed.

(** ** The item in view *)

(** C3, as amended.  For every slider with [N >= 1] items, after
    construction and after any sequence of [next], [prev] and [goTo] calls
    whose targets are integers of magnitude at most [2^50] (and of keyboard
    and touch events, which navigate through [next] and [prev]), exactly
    one item carries [in-view]: the item at position [index mod N], which
    exists.  For an array of items the doubles compute the same counter and
    the same flags along every such sequence of calls. *)
Theorem in_view_unique el acts :
  (1 <= length (q_items el))%nat →
  Forall exact_action acts →
  let s := run acts (new el) in
  total s = Z.of_nat (length (q_items el)) ∧
  0 <= js_mod (index s) (total s) < total s ∧
  (∀ i, flagged "in-view" s i ↔ Z.of_nat i = js_mod (index s) (total s)) ∧
  (∀ navs, Z.of_nat (length (q_items el)) <= max_array_length →
     Forall exact_nav navs →
     let d := run_double navs (to_double (new el)) in
     d = to_double (run (nav_action <$> navs) (new el)) ∧
     ∀ i, flagged_double "in-view" d i ↔
          2 * Z.of_nat i = js_mod2 (d_index d) (2 * d_total d)).
Proof.
  intros HN _ s.
  destruct (synced_run acts (new el) (synced_new el HN)) as (Ht & _ & _ & _ & Hf).
  fold s in Ht, Hf. split; [|split; [|split]].
  - subst s. rewrite total_run. unfold new. rewrite total_update. done.
  - apply js_mod_range; lia.
  - exact Hf.
  - intros navs Hmax Hn d.
    pose proof (run_double_run el navs HN Hmax Hn) as Hd. fold d in Hd.
    split; [exact Hd|]. rewrite Hd.
    set (s2 := run (nav_action <$> navs) (new el)).
    destruct (synced_run (nav_action <$> navs) (new el) (synced_new el HN))
      as (Ht2 & _ & _ & _ & Hf2).
    fold s2 in Ht2, Hf2.
    assert (Hlen : total s2 = Z.of_nat (length (q_items el))).
    { subst s2. rewrite total_run. unfold new. by rewrite total_update. }
    change (d_index (to_double s2)) with (2 * index s2).
    change (d_total (to_double s2)) with (total s2).
    unfold max_array_length in Hmax.
    rewrite js_mod2_exact by lia. rewrite js_mod_double by lia.
    intros i. change (flagged_double "in-view" (to_double s2) i)
      with (flagged "in-view" s2 i).
    rewrite Hf2. lia.
Qed.

Lemma in_view_unique_witness :
  let s := run [Next; GoTo 7; Prev; KeyDown "ArrowRight"] (new (plain_root 3)) in
  index s = 1 ∧
  (∀ i, flagged "in-view" s i ↔ Z.of_nat i = js_mod (index s) (total s)) ∧
  run_double [NavNext; NavGoTo 7; NavPrev] (to_double (new (plain_root 3))) =
  to_double (run [Next; GoTo 7; Prev] (new (plain_root 3))).
Proof.
  intros s. split; [vm_compute; reflexivity|].
  assert (HN : (1 <= length (q_items (plain_root 3)))%nat) by (vm_compute; lia).
  assert (He : Forall exact_action [Next; GoTo 7; Prev; KeyDown "ArrowRight"]).
  { repeat constructor. vm_compute; discriminate. }
  destruct (in_view_unique (plain_root 3)
              [Next; GoTo 7; Prev; KeyDown "ArrowRight"] HN He)
    as (_ & _ & Hf & Hd).
  split; [exact Hf|].
  apply (Hd [NavNext; NavGoTo 7; NavPrev]); [vm_compute; discriminate|].
  repeat constructor. vm_compute; discriminate.
Defined.

(** C3 as stated, for any [goTo] calls, fails where the doubles round.  On
    a new slider of three items [goTo(2^52 + 1)] leaves [index = -1.5], and
    [mod(index, 3) = 1.5] names no element: [update()] has removed
    [in-view] from every item and added it to none. *)
Lemma in_view_unique_counterexample :
  let d := run_double [NavGoTo (2 ^ 52 + 1)] (to_double (new (plain_root 3))) in
  d_total d = 3 ∧
  d_index d = -3 ∧
  js_mod2 (d_index d) (2 * d_total d) = 3 ∧
  ∀ i, ¬ flagged_double "in-view" d i.
Proof.
  intros d.
  assert (Hd : d_items d = [∅; ∅; ∅]) by (vm_compute; reflexivity).
  split; [vm_compute; reflexivity|].
  split; [vm_compute; reflexivity|]. split; [vm_compute; reflexivity|].
  clearbody d. intros i (el & Hel & Hin). rewrite Hd in Hel.
  destruct i as [|[|[|i]]]; simpl in Hel; simplify_eq; set_solver.
Qed.

(** ** Construction and touch *)

(** C6.  Constructing a slider with a selector string that matches no
    element, or with an argument that is neither a string nor an element,
    throws; no listener is registered and no instance is returned. *)
Theorem constructor_failure (document : Document) (reg : list Listener) :
  (∀ selector, document selector = NoMatch →
     constructor document (ArgString selector) reg =
     (Threw (NoElementMatchesSelector selector), reg)) ∧
  constructor document ArgOther reg = (Threw RequiresSelectorOrElement, reg).
Proof.
  split; [|done]. intros selector Hq.
  unfold constructor, mbind, Init_bind, bind, resolve_root. by rewrite Hq.
Qed.

Lemma constructor_failure_witness :
  constructor (λ _, NoMatch) (ArgString ".slider-3d") [] =
  (Threw (NoElementMatchesSelector ".slider-3d"), []).
Proof.
  apply (proj1 (constructor_failure (λ _, NoMatch) [])). reflexivity.
Defined.

Lemma Qgtb_true x y : Qgtb x y = true ↔ (y < x)%Q.
Proof.
  unfold Qgtb. rewrite negb_true_iff. split.
  - intros H. apply Qnot_le_lt. intros Hle.
    apply Qle_bool_iff in Hle. congruence.
  - intros H. destruct (Qle_bool x y) eqn:E; [|done].
    apply Qle_bool_iff in E. by apply Qlt_not_le in H.
Qed.

Lemma Qgtb_false x y : Qgtb x y = false ↔ (x <= y)%Q.
Proof.
  unfold Qgtb. rewrite negb_false_iff. apply Qle_bool_iff.
Qed.

Lemma Qred_inject_Z (z : Z) : Qred (inject_Z z) = inject_Z z.
Proof.
  pose proof (Qred_correct (inject_Z z)) as He.
  pose proof (gcd_Qred (inject_Z z)) as Hg.
  destruct (Qred (inject_Z z)) as [n d]. unfold Qeq in He. simpl in *.
  assert (Z.pos d = 1) as Hd.
  { rewrite Z.mul_1_r in He. subst n.
    replace (Z.gcd (z * Z.pos d) (Z.pos d))
      with (Z.gcd (z * Z.pos d) (1 * Z.pos d)) in Hg by (f_equal; lia).
    rewrite Z.gcd_mul_mono_r_nonneg, Z.gcd_1_r in Hg by lia. lia. }
  injection Hd as ->. unfold inject_Z. f_equal. lia.
Qed.

Lemma js_sub_diag (x : Q) : js_sub x x = 0%Q.
Proof.
  unfold js_sub. assert (Qred (x - x) = Qred 0) as -> by (apply Qred_complete; lra).
  reflexivity.
Qed.

Lemma js_sub_integers (X Y : Z) :
  Z.abs (Y - X) < 2 ^ 53 → js_sub (inject_Z Y) (inject_Z X) = inject_Z (Y - X).
Proof.
  intros Hb. unfold js_sub.
  assert (Qred (inject_Z Y - inject_Z X) = inject_Z (Y - X)) as ->.
  { rewrite <- (Qred_inject_Z (Y - X)). apply Qred_complete.
    unfold Qeq, Qminus, Qplus, Qopp, inject_Z; simpl. lia. }
  simpl. by rewrite round53_exact.
Qed.

Lemma calls_next s : calls (next s) = calls s ++ [CallNext; CallGoTo (index s + 1)].
Proof. rewrite next_unfold. simpl. by rewrite <- app_assoc. Qed.

Lemma calls_prev s : calls (prev s) = calls s ++ [CallPrev; CallGoTo (index s - 1)].
Proof. rewrite prev_unfold. simpl. by rewrite <- app_assoc. Qed.

(** C8.  On touch end with a recorded start and the threshold 30, with
    [delta] the difference [current - start] as the doubles give it: if
    [|delta| > 30], exactly one navigation call is made, [prev()] when
    [delta > 0] and [next()] when [delta < 0]; if [|delta| <= 30] none is
    made; in every case the touch tracking fields are cleared. *)
Theorem touch_end_swipe s start :
  _touchStartX s = Some start →
  _swipeThreshold s = 30%Q →
  let delta := js_sub (_touchCurrentX s) start in
  ((30 < Qabs delta)%Q → (0 < delta)%Q →
     _handleTouchEnd s = with_touch None 0%Q (prev s) ∧
     calls (_handleTouchEnd s) = calls s ++ [CallPrev; CallGoTo (index s - 1)]) ∧
  ((30 < Qabs delta)%Q → (delta < 0)%Q →
     _handleTouchEnd s = with_touch None 0%Q (next s) ∧
     calls (_handleTouchEnd s) = calls s ++ [CallNext; CallGoTo (index s + 1)]) ∧
  ((Qabs delta <= 30)%Q →
     _handleTouchEnd s = with_touch None 0%Q s ∧
     calls (_handleTouchEnd s) = calls s) ∧
  _touchStartX (_handleTouchEnd s) = None ∧
  _touchCurrentX (_handleTouchEnd s) = 0%Q.
Proof.
  intros Hstart Hthr delta. unfold _handleTouchEnd. rewrite Hstart, Hthr.
  fold delta. split; [|split; [|split; [|split]]].
  - intros Habs Hpos. apply Qgtb_true in Habs. apply Qgtb_true in Hpos.
    rewrite Habs, Hpos. split; [done|apply calls_prev].
  - intros Habs Hneg. apply Qgtb_true in Habs.
    apply Qlt_le_weak, Qgtb_false in Hneg.
    rewrite Habs, Hneg. split; [done|apply calls_next].
  - intros Habs. apply Qgtb_false in Habs. by rewrite Habs.
  - done.
  - done.
Qed.

Lemma touch_end_swipe_witness :
  (let s := _handleTouchMove [50%Q]
              (_handleTouchStart [100%Q] (new (plain_root 3))) in
   _touchStartX s = Some 100%Q ∧ _touchCurrentX s = 50%Q ∧
   js_sub (_touchCurrentX s) 100 = (-50)%Q ∧
   _handleTouchEnd s = with_touch None 0%Q (next s) ∧
   calls (_handleTouchEnd s) = [CallNext; CallGoTo 1]) ∧
  (let s := _handleTouchMove [double_30_1]
              (_handleTouchStart [double_0_1] (new (plain_root 3))) in
   (js_sub (_touchCurrentX s) double_0_1 == 30)%Q ∧
   calls (_handleTouchEnd s) = []).
Proof.
  split; intros s.
  - assert (Hs : _touchStartX s = Some 100%Q) by reflexivity.
    assert (Ht : _swipeThreshold s = 30%Q) by reflexivity.
    destruct (touch_end_swipe s 100%Q Hs Ht) as (_ & Hnext & _).
    destruct Hnext as [He Hc]; [vm_compute; reflexivity..|].
    split; [exact Hs|]. split; [reflexivity|].
    split; [vm_compute; reflexivity|]. split; [exact He|].
    rewrite Hc. reflexivity.
  - assert (Hs : _touchStartX s = Some double_0_1) by reflexivity.
    assert (Ht : _swipeThreshold s = 30%Q) by reflexivity.
    destruct (touch_end_swipe s double_0_1 Hs Ht) as (_ & _ & Hnone & _).
    destruct Hnone as [_ Hc]; [vm_compute; discriminate|].
    split; [vm_compute; reflexivity|]. rewrite Hc. reflexivity.
Defined.

(** ** Cards *)

Import Cards.

Lemma css_max_height_twice v w rs :
  css_max_height v (css_max_height w rs) = css_max_height v rs.
Proof.
  unfold css_max_height. rewrite <- list_fmap_compose. done.
Qed.

Lemma toggleCard_collapsed c :
  "expanded" ∉ classList c → toggleCard c = expandCard c.
Proof. intros H. unfold toggleCard. by rewrite bool_decide_false. Qed.

Lemma toggleCard_expanded c :
  "expanded" ∈ classList c → toggleCard c = collapseCard c.
Proof. intros H. unfold toggleCard. by rewrite bool_decide_true. Qed.

(** C9.  For a card whose first content region has scroll height [h]: a
    click on the collapsed card adds [expanded] and sets [max-height] to
    [<h>px]; a click on the expanded card removes the class and sets
    [0px]; two clicks on a collapsed card end with [0px] and the class list
    as it was.  The guarded handler does this for every click it accepts,
    the unguarded one for every click. *)
Theorem toggleCard_click c r rs :
  variables c = r :: rs →
  let h := scrollHeight r in
  ("expanded" ∉ classList c →
     toggleCard c =
     mkCard (card_id c) ({[ "expanded" ]} ∪ classList c)
       (css_max_height (toString h +:+ "px") (variables c))) ∧
  ("expanded" ∈ classList c →
     toggleCard c =
     mkCard (card_id c) (classList c ∖ {[ "expanded" ]})
       (css_max_height "0px" (variables c))) ∧
  ("expanded" ∉ classList c →
     toggleCard (toggleCard c) =
     mkCard (card_id c) (classList c) (css_max_height "0px" (variables c))) ∧
  (∀ event, shouldHandleClick event c = true →
     on_concept_card_click event c = toggleCard c) ∧
  (∀ event, on_concept_card_click_unguarded event c = toggleCard c).
Proof.
  intros Hv h.
  assert (Hexp : "expanded" ∉ classList c →
     toggleCard c =
     mkCard (card_id c) ({[ "expanded" ]} ∪ classList c)
       (css_max_height (toString h +:+ "px") (variables c))).
  { intros Hc. rewrite toggleCard_collapsed by done.
    unfold expandCard, prop_scrollHeight. by rewrite Hv. }
  split; [exact Hexp|]. split; [|split; [|split]].
  - intros Hc. by rewrite toggleCard_expanded.
  - intros Hc. rewrite (Hexp Hc).
    rewrite toggleCard_expanded by (simpl; set_solver).
    unfold collapseCard; simpl. rewrite css_max_height_twice.
    f_equal. set_solver.
  - intros event He. unfold on_concept_card_click. by rewrite He.
  - done.
Qed.

Lemma toggleCard_click_witness :
  let c := collapsed_card 120 in
  toggleCard c = mkCard 0 ({[ "expanded" ]} ∪ ∅) [mkRegion 120 (Some "120px")] ∧
  toggleCard (toggleCard c) = mkCard 0 ∅ [mkRegion 120 (Some "0px")] ∧
  on_concept_card_click (mkClickEvent (Some 0%nat)) c = toggleCard c.
Proof.
  intros c.
  destruct (toggleCard_click c (mkRegion 120 None) [] eq_refl)
    as (H1 & _ & H2 & H3 & _).
  split; [apply H1; apply not_elem_of_empty|].
  split; [apply H2; apply not_elem_of_empty|].
  apply H3. reflexivity.
Defined.

(** ** [_normalize] over the rationals *)

Lemma Qtrunc_quot (a : Z) (p : positive) : Qtrunc (a # p) = Z.quot a (Z.pos p).
Proof.
  unfold Qtrunc. destruct (Qle_bool 0 (a # p)) eqn:E.
  - apply Qle_bool_iff in E. unfold Qle in E; simpl in E.
    unfold Qfloor. symmetry. apply Z.quot_div_nonneg; lia.
  - assert (a < 0) as Ha.
    { destruct (Z.lt_ge_cases a 0) as [|Hge]; [done|].
      assert (Qle_bool 0 (a # p) = true) as E'
        by (apply Qle_bool_iff; unfold Qle; simpl; lia).
      congruence. }
    unfold Qceiling, Qfloor, Qopp; simpl.
    rewrite <- (Z.opp_involutive a) at 2. rewrite Z.quot_opp_l by lia.
    f_equal. symmetry. apply Z.quot_div_nonneg; lia.
Qed.

#[local] Instance Qtrunc_Proper : Proper (Qeq ==> eq) Qtrunc.
Proof.
  intros x y Hxy. unfold Qtrunc.
  rewrite (Qleb_comp 0%Q 0%Q (Qeq_refl 0) x y Hxy).
  by rewrite (Qfloor_comp x y Hxy), (Qceiling_comp x y Hxy).
Qed.

#[local] Instance js_remQ_Proper : Proper (Qeq ==> Qeq ==> Qeq) js_remQ.
Proof.
  intros n n' Hn m m' Hm. unfold js_remQ.
  assert (Qtrunc (n / m) = Qtrunc (n' / m')) as -> by (by rewrite Hn, Hm).
  by rewrite Hn, Hm.
Qed.

Lemma js_remQ_half (a m : Z) :
  0 < m → js_remQ (a # 2) (inject_Z m) == Z.rem a (2 * m) # 2.
Proof.
  intros Hm. destruct m as [|p|p]; try lia.
  unfold js_remQ.
  assert (Qtrunc ((a # 2) / inject_Z (Z.pos p)) = Z.quot a (2 * Z.pos p)) as ->.
  { unfold Qdiv, Qinv, Qmult, inject_Z; simpl.
    rewrite Qtrunc_quot. f_equal; lia. }
  pose proof (Z.quot_rem' a (2 * Z.pos p)) as Hqr.
  unfold Qeq, Qminus, Qplus, Qopp, Qmult, inject_Z; simpl. lia.
Qed.

Lemma js_modQ_half (a m : Z) :
  0 < m → js_modQ (a # 2) (inject_Z m) == js_mod a (2 * m) # 2.
Proof.
  intros Hm. unfold js_modQ, js_mod, js_rem.
  rewrite (js_remQ_half a m Hm).
  assert ((Z.rem a (2 * m) # 2) + inject_Z m == (Z.rem a (2 * m) + 2 * m) # 2)%Q
    as -> by (unfold Qeq, Qplus, inject_Z; simpl; lia).
  by apply js_remQ_half.
Qed.

(** X1.  The doubled-integer computation of [_normalize] is the source
    expression [mod(number + halfItems, totalItems) - halfItems] evaluated
    over the rationals, for every integer argument. *)
Theorem _normalizeQ_normalize s (d : Z) :
  1 <= total s → _normalizeQ s (inject_Z d) == inject_Z (_normalize s d).
Proof.
  intros HN. unfold _normalizeQ.
  assert (inject_Z d + inject_Z (total s) / 2 == (2 * d + total s) # 2)%Q as Harg
    by (unfold Qeq, Qplus, Qdiv, Qmult, Qinv, inject_Z; simpl; lia).
  assert (js_modQ (inject_Z d + inject_Z (total s) / 2) (inject_Z (total s))
          == js_mod (2 * d + total s) (2 * total s) # 2) as ->.
  { unfold js_modQ. rewrite Harg. apply js_modQ_half. lia. }
  pose proof (_normalize_exact s d HN) as He. unfold _normalize2 in He.
  unfold Qeq, Qminus, Qplus, Qopp, Qdiv, Qmult, Qinv, inject_Z; simpl. lia.
Qed.

Lemma _normalizeQ_normalize_witness :
  let s := new (plain_root 3) in
  (_normalizeQ s (inject_Z 2) == inject_Z (-1))%Q.
Proof.
  intros s. apply (_normalizeQ_normalize s 2). vm_compute; discriminate.
Defined.

(** ** More on [mod], [_normalize] and the rewrap bound *)

(** X2.  [mod(n, m)] with a positive [m] is the non-negative remainder:
    it lies in [[0, m)], differs from [n] by a multiple of [m] and leaves
    [0 <= n < m] as it is, whereas [n % m] alone is never positive for a
    negative [n]. *)
Theorem js_mod_nonnegative_remainder (n m : Z) :
  0 < m →
  0 <= js_mod n m < m ∧
  (m | n - js_mod n m) ∧
  (0 <= n < m → js_mod n m = n) ∧
  (n < 0 → js_rem n m <= 0).
Proof.
  intros Hm. split; [by apply js_mod_range|]. split; [|split].
  - rewrite js_mod_modulo by done. rewrite Z.mod_eq by lia.
    exists (n `div` m). lia.
  - intros Hn. rewrite js_mod_modulo by done. by apply Z.mod_small.
  - intros Hn. unfold js_rem. apply Z.rem_nonpos; lia.
Qed.

Lemma js_mod_nonnegative_remainder_witness :
  js_mod (-1) 5 = 4 ∧ js_rem (-1) 5 = -1 ∧ 0 <= js_mod (-1) 5 < 5.
Proof.
  split; [reflexivity|]. split; [reflexivity|].
  apply (js_mod_nonnegative_remainder (-1) 5). lia.
Defined.

Lemma _normalize_least s (d k : Z) :
  1 <= total s →
  k `mod` total s = d `mod` total s →
  Z.abs (_normalize s d) <= Z.abs k.
Proof.
  intros HN Hk.
  pose proof (_normalize_range s d HN) as Hr.
  pose proof (_normalize_congruent s d HN) as Hc.
  assert ((k - _normalize s d) `mod` total s = 0) as H0.
  { rewrite Zminus_mod, Hk, Hc, Z.sub_diag. apply Z.mod_0_l. lia. }
  apply Z.mod_divide in H0; [|lia]. destruct H0 as [q Hq].
  destruct (decide (q = 0)) as [->|Hne]; [|nia].
  assert (k = _normalize s d) as -> by lia. lia.
Qed.

(** X3.  [_normalize] takes a shortest way round.  For a distance [d]
    small enough for the sums of the doubles to be exact,
    [2 * |d| + 4 * N <= 2^53], the doubles compute the integer
    [_normalize(d)], and no integer congruent to [d] modulo the item count
    is smaller in absolute value. *)
Theorem _normalize_shortest s (d k : Z) :
  1 <= total s →
  2 * Z.abs d + 4 * total s <= 2 ^ 53 →
  k `mod` total s = d `mod` total s →
  _normalize_double (to_double s) (2 * d) = 2 * _normalize s d ∧
  Z.abs (_normalize s d) <= Z.abs k.
Proof.
  intros HN Hd Hk. split; [by apply _normalize_double_exact|].
  by apply _normalize_least.
Qed.

Lemma _normalize_shortest_witness :
  let s := new (plain_root 5) in
  _normalize s 4 = -1 ∧
  _normalize_double (to_double s) (2 * 4) = 2 * _normalize s 4 ∧
  Z.abs (_normalize s 4) <= Z.abs 4.
Proof.
  intros s. split; [vm_compute; reflexivity|].
  apply (_normalize_shortest s 4 4);
    [vm_compute; discriminate|vm_compute; discriminate|reflexivity].
Defined.

(** X4.  For distances small enough for the sums of the doubles to be
    exact, [2 * |d| + 4 * N <= 2^53], [_normalize] as the doubles compute
    it (counted in halves) is the integer [_normalize(d)], leaves every [d]
    of [[-N/2, N/2)] as it is, is idempotent, and does not see whole
    turns: [d] and [d + q * N] normalize to the same distance. *)
Theorem _normalize_fixed s (d : Z) :
  1 <= total s →
  2 * Z.abs d + 4 * total s <= 2 ^ 53 →
  let D := to_double s in
  _normalize_double D (2 * d) = 2 * _normalize s d ∧
  (- total s <= 2 * d < total s → _normalize_double D (2 * d) = 2 * d) ∧
  _normalize_double D (_normalize_double D (2 * d)) = _normalize_double D (2 * d) ∧
  (∀ q, 2 * Z.abs (d + q * total s) + 4 * total s <= 2 ^ 53 →
        _normalize_double D (2 * (d + q * total s)) = _normalize_double D (2 * d)).
Proof.
  intros HN Hd D. subst D.
  assert (Hfix : ∀ x, - total s <= 2 * x < total s → _normalize s x = x).
  { intros x Hx. rewrite _normalize_closed by done.
    rewrite Z.div_small by lia. lia. }
  pose proof (_normalize_range s d HN) as Hr.
  pose proof (_normalize_least s d d HN eq_refl) as Hle.
  rewrite (_normalize_double_exact s d HN Hd).
  split; [done|]. split; [|split].
  - intros Hx. by rewrite Hfix.
  - rewrite _normalize_double_exact by lia. by rewrite Hfix.
  - intros q Hq. rewrite _normalize_double_exact by done. f_equal.
    rewrite !_normalize_closed by done.
    replace (2 * (d + q * total s) + total s)
      with (2 * d + total s + q * (2 * total s)) by lia.
    rewrite Z.div_add by lia. lia.
Qed.

Lemma _normalize_fixed_witness :
  let s := new (plain_root 4) in
  _normalize_double (to_double s) (2 * -2) = 2 * -2 ∧
  _normalize_double (to_double s) (2 * 2) = 2 * -2.
Proof.
  intros s. assert (HN : 1 <= total s) by (vm_compute; discriminate).
  assert (Ht : total s = 4) by (vm_compute; reflexivity).
  assert (Hd : 2 * Z.abs (-2) + 4 * total s <= 2 ^ 53)
    by (rewrite Ht; vm_compute; discriminate).
  destruct (_normalize_fixed s (-2) HN Hd) as (_ & Hfix & _ & Hper).
  split; [apply Hfix; rewrite Ht; lia|].
  pose proof (Hper 1) as H1. rewrite Ht in H1.
  change (-2 + 1 * 4) with 2 in H1. rewrite H1 by (vm_compute; discriminate).
  apply Hfix. rewrite Ht. lia.
Defined.

Lemma rewrap_bound_least s :
  1 <= total s →
  100 <= rewrap_bound s < 100 + total s ∧ (total s | rewrap_bound s).
Proof.
  intros HN. unfold rewrap_bound. rewrite ceil_100_over_div by lia.
  pose proof (Z.div_mod (-100) (total s) ltac:(lia)) as Hdm.
  pose proof (Z.mod_pos_bound (-100) (total s) ltac:(lia)) as Hb.
  split; [nia|]. exists (- ((-100) `div` total s)). lia.
Qed.

(** X5.  The rewrap bound [N * ceil(100 / N)] is the least multiple of
    the item count that is at least 100; it lies in [[100, 100 + N)]. *)
Theorem rewrap_bound_least_multiple s :
  1 <= total s →
  100 <= rewrap_bound s < 100 + total s ∧
  (total s | rewrap_bound s) ∧
  ∀ m, (total s | m) → 100 <= m → rewrap_bound s <= m.
Proof.
  intros HN. destruct (rewrap_bound_least s HN) as [Hr [c Hc]].
  split; [exact Hr|]. split; [by exists c|].
  intros m [q Hq] Hm.
  destruct (Z.le_gt_cases (rewrap_bound s) m) as [|Hlt]; [done|exfalso].
  assert (q < c) by nia. assert (q <= c - 1) by lia. nia.
Qed.

Lemma rewrap_bound_least_multiple_witness :
  let s := new (plain_root 7) in
  rewrap_bound s = 105 ∧ 100 <= rewrap_bound s < 100 + total s.
Proof.
  intros s. split; [vm_compute; reflexivity|].
  apply (rewrap_bound_least_multiple s). vm_compute; discriminate.
Defined.

Lemma _normalize_multiple s (d : Z) :
  1 <= total s → d `mod` total s = 0 → _normalize s d = 0.
Proof.
  intros HN Hd. apply Z.mod_divide in Hd; [|lia]. destruct Hd as [q ->].
  rewrite _normalize_closed by done.
  replace (2 * (q * total s) + total s) with (total s + q * (2 * total s)) by lia.
  rewrite Z.div_add by lia. rewrite Z.div_small by lia. lia.
Qed.

Lemma index_goTo_multiple s (b : Z) :
  1 <= total s →
  Z.abs (index s) <= rewrap_bound s →
  b `mod` total s = index s `mod` total s →
  goTo b s = update (log_call (CallGoTo b) s) ∧ index (goTo b s) = index s.
Proof.
  intros HN Hb Hc.
  assert (_normalize s (b - index s) = 0) as Hn.
  { apply _normalize_multiple; [done|].
    rewrite Zminus_mod, Hc, Z.sub_diag. apply Z.mod_0_l. lia. }
  rewrite goTo_unfold, Hn, Z.add_0_r. split; [by destruct s|].
  rewrite index_update.
  change (rewrap_bound (with_index _ _)) with (rewrap_bound s).
  change (index (with_index ?i _)) with i.
  by rewrite bool_decide_false by lia.
Qed.

(** X6.  [goTo] to an integer target of magnitude up to [2^50] that is
    congruent to the current [index] modulo the item count (the current
    [index] itself, say) leaves the counter where it is, when it is within
    the rewrap bound, and flags what [update()] alone would flag; the
    doubles compute just that. *)
Theorem goTo_same_position s (b : Z) :
  1 <= total s →
  total s <= max_array_length →
  Z.abs (index s) <= rewrap_bound s →
  exact_integer b →
  b `mod` total s = index s `mod` total s →
  index (goTo b s) = index s ∧
  items (goTo b s) = items (update s) ∧
  indicators (goTo b s) = indicators (update s) ∧
  goTo_double (2 * b) (to_double s) = to_double (goTo b s).
Proof.
  intros HN Hmax Hb Hex Hc.
  destruct (index_goTo_multiple s b HN Hb Hc) as [Hg Hi].
  split; [exact Hi|]. split; [by rewrite Hg|]. split; [by rewrite Hg|].
  apply goTo_double_goTo; [done|].
  pose proof (rewrap_bound_upper s HN).
  unfold exact_integer, max_array_length in *. lia.
Qed.

Lemma goTo_same_position_witness :
  let s := next_times 2 (new (plain_root 5)) in
  index s = 2 ∧ index (goTo 7 s) = index s ∧ index (goTo (-3) s) = index s.
Proof.
  intros s. assert (HN : 1 <= total s) by (vm_compute; discriminate).
  assert (Hm : total s <= max_array_length) by (vm_compute; discriminate).
  assert (Hb : Z.abs (index s) <= rewrap_bound s) by (vm_compute; discriminate).
  split; [vm_compute; reflexivity|]. split.
  - apply (goTo_same_position s 7 HN Hm Hb); vm_compute;
      [discriminate|reflexivity].
  - apply (goTo_same_position s (-3) HN Hm Hb); vm_compute;
      [discriminate|reflexivity].
Defined.

(** ** More on [next], [prev] and [goTo] *)








Lemma index_next_rewrap s :
  1 <= total s → Z.abs (index s + _normalize s 1) > rewrap_bound s →
  index (next s) = js_mod (index s + 1) (total s).
Proof.
  intros HN Hb. rewrite <- js_mod_index_next by done.
  rewrite next_unfold at 1. rewrite index_update.
  rewrite bool_decide_true by done.
  change (total (with_index _ _)) with (total s).
  change (index (with_index ?i _)) with i.
  pose proof (js_mod_index_next s HN) as H.
  rewrite !js_mod_modulo in * by lia. rewrite H.
  rewrite <- Zplus_mod_idemp_r, _normalize_congruent by done.
  by rewrite Zplus_mod_idemp_r.
Qed.

Lemma index_new el : index (new el) = 0.
Proof.
  unfold new. rewrite index_update.
  change (index (fields el)) with 0. case_bool_decide; [|done].
  unfold js_mod, js_rem. change (Z.rem 0 (total (fields el))) with 0.
  rewrite Z.add_0_l.
  destruct (decide (total (fields el) = 0)) as [->|Hne]; [done|].
  by apply Z.rem_same.
Qed.

(** X9.  With three items or more, [n] calls of [next()] on a fresh
    instance give [index = n] as long as [n] is at most the rewrap bound
    [B], and the call after the [B]-th collapses the counter to 1. *)
Theorem next_drives_past_bound el :
  (3 <= length (q_items el))%nat →
  let s0 := new el in
  let B := rewrap_bound s0 in
  (∀ n, Z.of_nat n <= B → index (next_times n s0) = Z.of_nat n) ∧
  index (next_times (S (Z.to_nat B)) s0) = 1.
Proof.
  intros HN s0 B.
  assert (Ht : 3 <= total s0).
  { subst s0. unfold new. rewrite total_update. unfold total; simpl. lia. }
  assert (H0 : index s0 = 0) by apply index_new.
  assert (HB : 100 <= B < 100 + total s0 ∧ (total s0 | B))
    by (apply rewrap_bound_least; lia).
  assert (Hk : ∀ n, Z.of_nat n <= B → index (next_times n s0) = Z.of_nat n).
  { intros n Hn. rewrite index_next_times; fold B; lia. }
  split; [exact Hk|].
  rewrite next_times_S.
  set (s := next_times (Z.to_nat B) s0).
  assert (Hs : index s = B) by (subst s; rewrite Hk; lia).
  assert (Hts : total s = total s0) by apply total_next_times.
  rewrite index_next_rewrap.
  - rewrite Hs, Hts, js_mod_modulo by lia.
    destruct HB as [_ [q Hq]]. rewrite Hq, Z.add_comm, Z.mod_add by lia.
    apply Z.mod_small. lia.
  - lia.
  - rewrite _normalize_one by lia. unfold rewrap_bound. rewrite Hts, Hs.
    fold (rewrap_bound s0). fold B. lia.
Qed.

Lemma next_drives_past_bound_witness :
  let s0 := new (plain_root 7) in
  rewrap_bound s0 = 105 ∧ index (next_times 105 s0) = 105 ∧
  index (next_times 106 s0) = 1.
Proof.
  intros s0.
  assert (HN : (3 <= length (q_items (plain_root 7)))%nat) by (vm_compute; lia).
  destruct (next_drives_past_bound (plain_root 7) HN) as [Hk Hw].
  fold s0 in Hk, Hw.
  assert (HB : rewrap_bound s0 = 105) by (vm_compute; reflexivity).
  split; [exact HB|]. split.
  - apply (Hk 105%nat). rewrite HB. vm_compute; discriminate.
  - rewrite HB in Hw. exact Hw.
Defined.

(** ** More on the flags *)

Lemma flagged_update c s i :
  flagged c (update s) i ↔
  ∃ el, items s !! i = Some el ∧
        c ∈ item_after (js_mod (index s) (total s))
              (js_mod (index s + 1) (total s))
              (js_mod (index s - 1) (total s)) i el.
Proof.
  unfold flagged. rewrite lookup_items_update.
  destruct (items s !! i) as [el|]; simpl; naive_solver.
Qed.

Lemma indicator_flagged_update c s i :
  indicator_flagged c (update s) i ↔
  ∃ el, indicators s !! i = Some el ∧
        c ∈ indicator_after (js_mod (index s) (total s)) i el.
Proof.
  unfold indicator_flagged. rewrite lookup_indicators_update.
  destruct (indicators s !! i) as [el|]; simpl; naive_solver.
Qed.

Lemma item_exists s (i : nat) p :
  0 <= p < total s → Z.of_nat i = p → is_Some (items s !! i).
Proof.
  intros Hp Hi. apply lookup_lt_is_Some_2. unfold total in Hp. lia.
Qed.

Lemma flagged_next_item_update s (i : nat) :
  1 <= total s →
  flagged "next-item" (update s) i ↔ Z.of_nat i = js_mod (index s + 1) (total s).
Proof.
  intros HN.
  pose proof (js_mod_range (index s + 1) (total s) ltac:(lia)) as Hn.
  rewrite flagged_update. unfold item_after. split.
  - intros (el & _ & Hin).
    destruct (decide (js_mod (index s + 1) (total s) = Z.of_nat i)) as [|Hne];
      [done|exfalso].
    rewrite (bool_decide_false _ Hne) in Hin.
    repeat case_bool_decide; set_unfold in Hin; naive_solver.
  - intros Hi. destruct (item_exists s i _ Hn Hi) as [el Hel].
    exists el. split; [done|].
    rewrite (bool_decide_true (js_mod (index s + 1) (total s) = Z.of_nat i))
      by lia.
    set_solver.
Qed.

Lemma flagged_previous_item_update s (i : nat) :
  1 <= total s →
  flagged "previous-item" (update s) i ↔
  Z.of_nat i = js_mod (index s - 1) (total s).
Proof.
  intros HN.
  pose proof (js_mod_range (index s - 1) (total s) ltac:(lia)) as Hp.
  rewrite flagged_update. unfold item_after. split.
  - intros (el & _ & Hin).
    destruct (decide (js_mod (index s - 1) (total s) = Z.of_nat i)) as [|Hne];
      [done|exfalso].
    rewrite (bool_decide_false _ Hne) in Hin.
    repeat case_bool_decide; set_unfold in Hin; naive_solver.
  - intros Hi. destruct (item_exists s i _ Hp Hi) as [el Hel].
    exists el. split; [done|].
    rewrite (bool_decide_true (js_mod (index s - 1) (total s) = Z.of_nat i))
      by lia.
    set_solver.
Qed.

(** X10.  After [update()], [next-item] sits exactly on the item at
    [(index + 1) mod N] and [previous-item] exactly on the item at
    [(index - 1) mod N]; every other class of an item is as it was. *)
Theorem update_flags s (i : nat) :
  1 <= total s →
  (flagged "next-item" (update s) i ↔
     Z.of_nat i = js_mod (index s + 1) (total s)) ∧
  (flagged "previous-item" (update s) i ↔
     Z.of_nat i = js_mod (index s - 1) (total s)) ∧
  (∀ c, c ≠ "in-view" → c ≠ "next-item" → c ≠ "previous-item" →
     flagged c (update s) i ↔ flagged c s i).
Proof.
  intros HN.
  split; [by apply flagged_next_item_update|].
  split; [by apply flagged_previous_item_update|].
  intros c H1 H2 H3. rewrite flagged_update. unfold flagged, item_after.
  split; intros (el & Hel & Hin); exists el; (split; [done|]).
  - repeat case_bool_decide; set_unfold in Hin; naive_solver.
  - repeat case_bool_decide; set_unfold; naive_solver.
Qed.

Lemma update_flags_witness :
  let s := with_index 4 (new (mkHTMLElement [{[ "item" ]}; {[ "item" ]}; {[ "item" ]}] [] false false)) in
  flagged "next-item" (update s) 2 ∧ flagged "previous-item" (update s) 0 ∧
  flagged "item" (update s) 1.
Proof.
  intros s. assert (HN : 1 <= total s) by (vm_compute; discriminate).
  split; [|split].
  - apply (proj1 (update_flags s 2 HN)). vm_compute; reflexivity.
  - apply (proj1 (proj2 (update_flags s 0 HN))). vm_compute; reflexivity.
  - apply (proj2 (proj2 (update_flags s 1 HN))); [done..|].
    eexists. split; [reflexivity|]. apply (bool_decide_unpack _). vm_compute. exact I.
Defined.

Lemma indicator_active_update s (j : nat) :
  indicator_flagged "active" (update s) j ↔
  Z.of_nat j = js_mod (index s) (total s) ∧ (j < length (indicators s))%nat.
Proof.
  rewrite indicator_flagged_update. unfold indicator_after. split.
  - intros (el & Hel & Hin). split; [|by eapply lookup_lt_Some].
    destruct (decide (js_mod (index s) (total s) = Z.of_nat j)) as [|Hne];
      [done|exfalso].
    rewrite (bool_decide_false _ Hne) in Hin. set_unfold in Hin. naive_solver.
  - intros [Hj Hlt]. destruct (lookup_lt_is_Some_2 _ _ Hlt) as [el Hel].
    exists el. split; [done|].
    rewrite (bool_decide_true (js_mod (index s) (total s) = Z.of_nat j)) by lia.
    set_solver.
Qed.

(** X11.  After [update()], an indicator carries [active] exactly when
    its position is [index mod N] and it exists; other classes of the
    indicators are as they were, and with fewer indicators than that
    position none is active. *)
Theorem update_indicators s (i : nat) :
  1 <= total s →
  (indicator_flagged "active" (update s) i ↔
     Z.of_nat i = js_mod (index s) (total s) ∧ (i < length (indicators s))%nat) ∧
  (∀ c, c ≠ "active" →
     indicator_flagged c (update s) i ↔ indicator_flagged c s i) ∧
  ((length (indicators s) <= Z.to_nat (js_mod (index s) (total s)))%nat →
     ∀ j, ¬ indicator_flagged "active" (update s) j).
Proof.
  intros HN.
  pose proof (js_mod_range (index s) (total s) ltac:(lia)) as Hr.
  split; [apply indicator_active_update|]. split.
  - intros c Hc. rewrite indicator_flagged_update.
    unfold indicator_flagged, indicator_after.
    split; intros (el & Hel & Hin); exists el; (split; [done|]).
    + case_bool_decide; set_unfold in Hin; naive_solver.
    + case_bool_decide; set_unfold; naive_solver.
  - intros Hshort j Hj. apply indicator_active_update in Hj. lia.
Qed.

Lemma update_indicators_witness :
  let s := with_index 2 (new (mkHTMLElement [∅; ∅; ∅] [∅; ∅] false false)) in
  (∀ j, ¬ indicator_flagged "active" (update s) j) ∧
  indicator_flagged "active" (update (with_index 1 s)) 1.
Proof.
  intros s. assert (HN : 1 <= total s) by (vm_compute; discriminate).
  split.
  - apply (proj2 (proj2 (update_indicators s 0 HN))). vm_compute. lia.
  - apply (proj1 (update_indicators (with_index 1 s) 1 HN)).
    split; [vm_compute; reflexivity|vm_compute; lia].
Defined.

(** X12.  With three items or more the positions in view, next and
    previous are pairwise distinct, so no item carries two of the three
    flags after [update()]. *)
Theorem update_three_items s :
  3 <= total s →
  let cur := js_mod (index s) (total s) in
  let nxt := js_mod (index s + 1) (total s) in
  let prv := js_mod (index s - 1) (total s) in
  cur ≠ nxt ∧ cur ≠ prv ∧ nxt ≠ prv ∧
  ∀ i, ¬ (flagged "in-view" (update s) i ∧ flagged "next-item" (update s) i) ∧
       ¬ (flagged "in-view" (update s) i ∧ flagged "previous-item" (update s) i) ∧
       ¬ (flagged "next-item" (update s) i ∧ flagged "previous-item" (update s) i).
Proof.
  intros HN cur nxt prv.
  assert (Hd : cur ≠ nxt ∧ cur ≠ prv ∧ nxt ≠ prv).
  { subst cur nxt prv. rewrite !js_mod_modulo by lia.
    pose proof (Z.mod_pos_bound (index s) (total s) ltac:(lia)) as Hb.
    pose proof (Z.div_mod (index s) (total s) ltac:(lia)) as Hdm.
    set (q := index s `div` total s) in *. set (r := index s `mod` total s) in *.
    assert (Hplus : (index s + 1) `mod` total s =
                    if decide (r + 1 < total s) then r + 1 else 0).
    { case_decide.
      - symmetry. apply (Z.mod_unique_pos _ _ q); lia.
      - symmetry. apply (Z.mod_unique_pos _ _ (q + 1)); lia. }
    assert (Hminus : (index s - 1) `mod` total s =
                     if decide (1 <= r) then r - 1 else total s - 1).
    { clear Hplus. case_decide.
      - symmetry. apply (Z.mod_unique_pos _ _ q); lia.
      - symmetry. apply (Z.mod_unique_pos _ _ (q - 1)); lia. }
    rewrite Hplus, Hminus. repeat case_decide; lia. }
  split; [apply Hd|]. split; [apply Hd|]. split; [apply Hd|].
  intros i. assert (H1 : 1 <= total s) by lia.
  pose proof (flagged_in_view_update s i H1) as Hv.
  pose proof (flagged_next_item_update s i H1) as Hn.
  pose proof (flagged_previous_item_update s i H1) as Hp.
  fold cur in Hv. fold nxt in Hn. fold prv in Hp.
  rewrite Hv, Hn, Hp. lia.
Qed.

Lemma update_three_items_witness :
  let s := new (plain_root 3) in
  js_mod (index s + 1) (total s) ≠ js_mod (index s - 1) (total s).
Proof.
  intros s. apply (update_three_items s). vm_compute; discriminate.
Defined.

(** X13.  [goTo(i)] for the position [i] of an existing item, which is
    what a click on indicator [i] calls, puts [in-view] on item [i] and on
    no other, and [active] on indicator [i] alone when that indicator
    exists. *)
Theorem goTo_indicator s (i : nat) :
  (i < length (items s))%nat →
  js_mod (index (goTo (Z.of_nat i) s)) (total s) = Z.of_nat i ∧
  (∀ j, flagged "in-view" (goTo (Z.of_nat i) s) j ↔ j = i) ∧
  ((i < length (indicators s))%nat →
   ∀ j, indicator_flagged "active" (goTo (Z.of_nat i) s) j ↔ j = i).
Proof.
  intros Hi. assert (HN : 1 <= total s) by (unfold total; lia).
  assert (Hm : js_mod (index (goTo (Z.of_nat i) s)) (total s) = Z.of_nat i).
  { rewrite js_mod_modulo by lia. rewrite index_goTo_mod by done.
    apply Z.mod_small. unfold total. lia. }
  split; [exact Hm|].
  rewrite goTo_unfold in *. set (s' := with_index _ _) in *.
  change (total s) with (total s') in *.
  rewrite js_mod_index_update_0 in Hm by done.
  split.
  - intros j. rewrite flagged_in_view_update by done. rewrite Hm. lia.
  - intros Hlt j.
    rewrite indicator_active_update, Hm.
    change (indicators s') with (indicators s). lia.
Qed.

Lemma goTo_indicator_witness :
  let s := next_times 4 (new (plain_root 5)) in
  index s = 4 ∧ index (goTo 1 s) = 6 ∧
  ∀ j, flagged "in-view" (goTo 1 s) j ↔ j = 1%nat.
Proof.
  intros s. split; [vm_compute; reflexivity|]. split; [vm_compute; reflexivity|].
  apply (goTo_indicator s 1). vm_compute. lia.
Defined.

(** ** Keyboard *)

Lemma with_pressedKeys_id s : with_pressedKeys (pressedKeys s) s = s.
Proof. by destruct s. Qed.

Lemma pressedKeys_keydown key s : key ∈ pressedKeys (_handleKeyDown key s).
Proof.
  unfold _handleKeyDown. case_bool_decide as Hheld; [done|].
  repeat case_bool_decide;
    change (key ∈ {[ key ]} ∪ pressedKeys s); set_solver.
Qed.

Lemma keydown_repeat_aux key s :
  _handleKeyDown key (_handleKeyDown key s) = _handleKeyDown key s.
Proof.
  pose proof (pressedKeys_keydown key s) as Hheld.
  unfold _handleKeyDown at 1. by rewrite bool_decide_true.
Qed.

(** X14.  Key repeat is suppressed: a second [keydown] of a key, with no
    [keyup] in between, changes nothing. *)
Theorem keydown_repeat_suppressed key s :
  _handleKeyDown key (_handleKeyDown key s) = _handleKeyDown key s.
Proof.
  pose proof (pressedKeys_keydown key s) as Hheld.
  unfold _handleKeyDown at 1. by rewrite bool_decide_true.
Qed.

Lemma keydown_arrow_right s :
  "ArrowRight" ∉ pressedKeys s →
  _handleKeyDown "ArrowRight" s =
  next (with_pressedKeys ({[ "ArrowRight" ]} ∪ pressedKeys s) s).
Proof. intros H. unfold _handleKeyDown. by rewrite bool_decide_false. Qed.

Lemma keydown_arrow_left s :
  "ArrowLeft" ∉ pressedKeys s →
  _handleKeyDown "ArrowLeft" s =
  prev (with_pressedKeys ({[ "ArrowLeft" ]} ∪ pressedKeys s) s).
Proof. intros H. unfold _handleKeyDown. by rewrite bool_decide_false. Qed.

(** X15.  On a slider with an item, pressing and releasing a key that was
    not held restores the set of held keys, and for a key other than the
    two arrows the whole instance; a held arrow key navigates once per
    press: [keydown], [keydown], [keyup], [keydown] makes exactly two
    [next()] (or [prev()]) calls. *)
Theorem key_press_release key s :
  1 <= total s →
  key ∉ pressedKeys s →
  pressedKeys (_handleKeyUp key (_handleKeyDown key s)) = pressedKeys s ∧
  (key ≠ "ArrowLeft" → key ≠ "ArrowRight" →
   _handleKeyUp key (_handleKeyDown key s) = s) ∧
  (key = "ArrowRight" →
   calls (run [KeyDown key; KeyDown key; KeyUp key; KeyDown key] s) =
   calls s ++ [CallNext; CallGoTo (index s + 1);
               CallNext; CallGoTo (index (next s) + 1)]) ∧
  (key = "ArrowLeft" →
   calls (run [KeyDown key; KeyDown key; KeyUp key; KeyDown key] s) =
   calls s ++ [CallPrev; CallGoTo (index s - 1);
               CallPrev; CallGoTo (index (prev s) - 1)]).
Proof.
  intros _ Hfree.
  assert (Hset : ({[ key ]} ∪ pressedKeys s) ∖ {[ key ]} = pressedKeys s)
    by set_solver.
  assert (Hup : pressedKeys (_handleKeyUp key (_handleKeyDown key s)) =
                pressedKeys s).
  { unfold _handleKeyDown. rewrite bool_decide_false by done.
    repeat case_bool_decide; exact Hset. }
  split; [exact Hup|]. split; [|split].
  - intros Hl Hr. unfold _handleKeyDown.
    rewrite bool_decide_false by done.
    rewrite (bool_decide_false (key = "ArrowLeft")) by done.
    rewrite (bool_decide_false (key = "ArrowRight")) by done.
    change (with_pressedKeys (({[ key ]} ∪ pressedKeys s) ∖ {[ key ]}) s = s).
    rewrite Hset. apply with_pressedKeys_id.
  - intros ->. simpl run. rewrite keydown_repeat_aux.
    set (s1 := _handleKeyUp _ _).
    assert (Hs1 : "ArrowRight" ∉ pressedKeys s1) by (subst s1; by rewrite Hup).
    rewrite (keydown_arrow_right s1 Hs1), calls_next.
    change (calls (with_pressedKeys _ s1))
      with (calls (_handleKeyDown "ArrowRight" s)).
    change (index (with_pressedKeys _ s1))
      with (index (_handleKeyDown "ArrowRight" s)).
    rewrite (keydown_arrow_right s Hfree), calls_next.
    rewrite <- app_assoc. done.
  - intros ->. simpl run. rewrite keydown_repeat_aux.
    set (s1 := _handleKeyUp _ _).
    assert (Hs1 : "ArrowLeft" ∉ pressedKeys s1) by (subst s1; by rewrite Hup).
    rewrite (keydown_arrow_left s1 Hs1), calls_prev.
    change (calls (with_pressedKeys _ s1))
      with (calls (_handleKeyDown "ArrowLeft" s)).
    change (index (with_pressedKeys _ s1))
      with (index (_handleKeyDown "ArrowLeft" s)).
    rewrite (keydown_arrow_left s Hfree), calls_prev.
    rewrite <- app_assoc. done.
Qed.

Lemma key_press_release_witness :
  let s := new (plain_root 5) in
  calls (run [KeyDown "ArrowRight"; KeyDown "ArrowRight"; KeyUp "ArrowRight";
              KeyDown "ArrowRight"] s) =
  [CallNext; CallGoTo 1; CallNext; CallGoTo 2] ∧
  _handleKeyUp "a" (_handleKeyDown "a" s) = s.
Proof.
  intros s.
  assert (HN : 1 <= total s) by (vm_compute; discriminate).
  assert (Hr : "ArrowRight" ∉ pressedKeys s) by apply not_elem_of_empty.
  assert (Ha : "a" ∉ pressedKeys s) by apply not_elem_of_empty.
  split.
  - rewrite (proj1 (proj2 (proj2 (key_press_release "ArrowRight" s HN Hr)))
               eq_refl).
    reflexivity.
  - apply (proj1 (proj2 (key_press_release "a" s HN Ha))); discriminate.
Defined.

(** ** Touch gestures *)

Lemma touch_end_unfold s start :
  _touchStartX s = Some start →
  _handleTouchEnd s =
  with_touch None 0%Q
    (if Qgtb (Qabs (js_sub (_touchCurrentX s) start)) (_swipeThreshold s)
     then if Qgtb (js_sub (_touchCurrentX s) start) 0 then prev s else next s
     else s).
Proof. intros H. unfold _handleTouchEnd. by rewrite H. Qed.

(** X16.  A tap does not navigate: touch start followed by touch end,
    with no move of the single finger in between (moves that report
    two fingers or more are ignored), only clears the touch fields. *)
Theorem tap_never_navigates s (x : Q) :
  _swipeThreshold s = 30%Q →
  _handleTouchEnd (_handleTouchStart [x] s) = with_touch None 0%Q s ∧
  (∀ a b rest, _handleTouchEnd (_handleTouchMove (a :: b :: rest)
                                  (_handleTouchStart [x] s))
               = with_touch None 0%Q s).
Proof.
  intros Hthr.
  assert (Hend : _handleTouchEnd (_handleTouchStart [x] s) = with_touch None 0%Q s).
  { rewrite (touch_end_unfold _ x) by done.
    change (_touchCurrentX (_handleTouchStart [x] s)) with x.
    change (_swipeThreshold (_handleTouchStart [x] s)) with (_swipeThreshold s).
    rewrite Hthr, js_sub_diag. reflexivity. }
  split; [exact Hend|]. intros a b rest. exact Hend.
Qed.

Lemma tap_never_navigates_witness :
  let s := new (plain_root 3) in
  calls (_handleTouchEnd (_handleTouchStart [100%Q] s)) = [] ∧
  index (_handleTouchEnd (_handleTouchStart [100%Q] s)) = 0.
Proof.
  intros s.
  rewrite (proj1 (tap_never_navigates s 100%Q eq_refl)).
  split; reflexivity.
Defined.

(** X17.  A whole gesture from [x] to [y] on a slider with an item and the
    constructor's threshold, with [delta] the difference [y - x] as the
    doubles give it: [delta < -30] calls [next()], [delta > 30] calls
    [prev()], anything else only clears the touch fields.  For whole
    coordinates [delta] is the exact difference. *)
Theorem swipe_gesture s (x y : Q) :
  1 <= total s →
  _swipeThreshold s = 30%Q →
  let delta := js_sub y x in
  let s' := _handleTouchEnd (_handleTouchMove [y] (_handleTouchStart [x] s)) in
  ((delta < -30)%Q → s' = with_touch None 0%Q (next s)) ∧
  ((30 < delta)%Q → s' = with_touch None 0%Q (prev s)) ∧
  ((-30 <= delta)%Q → (delta <= 30)%Q → s' = with_touch None 0%Q s) ∧
  (∀ X Y : Z, x = inject_Z X → y = inject_Z Y → Z.abs (Y - X) < 2 ^ 53 →
     delta = inject_Z (Y - X)).
Proof.
  intros _ Hthr delta s'. subst s'.
  rewrite (touch_end_unfold _ x) by done.
  change (_touchCurrentX (_handleTouchMove [y] (_handleTouchStart [x] s))) with y.
  change (_swipeThreshold (_handleTouchMove [y] (_handleTouchStart [x] s)))
    with (_swipeThreshold s).
  rewrite Hthr. fold delta. split; [|split; [|split]].
  - intros Hlt.
    assert (Qgtb (Qabs delta) 30 = true) as ->.
    { apply Qgtb_true. rewrite Qabs_neg by lra. lra. }
    assert (Qgtb delta 0 = false) as -> by (apply Qgtb_false; lra).
    done.
  - intros Hlt.
    assert (Qgtb (Qabs delta) 30 = true) as ->.
    { apply Qgtb_true. rewrite Qabs_pos by lra. lra. }
    assert (Qgtb delta 0 = true) as -> by (apply Qgtb_true; lra).
    done.
  - intros Hlo Hhi.
    assert (Qgtb (Qabs delta) 30 = false) as ->; [|done].
    apply Qgtb_false. apply Qabs_Qle_condition. split; lra.
  - intros X Y -> -> Hb. by apply js_sub_integers.
Qed.

Lemma swipe_gesture_witness :
  let s := new (plain_root 3) in
  _handleTouchEnd (_handleTouchMove [(141 # 2)%Q] (_handleTouchStart [40%Q] s))
    = with_touch None 0%Q (prev s) ∧
  _handleTouchEnd (_handleTouchMove [double_30_1] (_handleTouchStart [double_0_1] s))
    = with_touch None 0%Q s ∧
  js_sub 71 40 = inject_Z (71 - 40).
Proof.
  intros s.
  assert (HN : 1 <= total s) by (vm_compute; discriminate).
  split; [|split].
  - apply (proj1 (proj2 (swipe_gesture s 40%Q (141 # 2)%Q HN eq_refl))).
    vm_compute; reflexivity.
  - apply (proj1 (proj2 (proj2 (swipe_gesture s double_0_1 double_30_1 HN eq_refl))));
      vm_compute; discriminate.
  - apply (proj2 (proj2 (proj2 (swipe_gesture s 40%Q 71%Q HN eq_refl))) 40 71);
      [reflexivity|reflexivity|vm_compute; reflexivity].
Defined.

Lemma touch_move_no_start ts s :
  _touchStartX s = None → _handleTouchMove ts s = s.
Proof. intros H. unfold _handleTouchMove. by rewrite H. Qed.

Lemma run_moves_no_start (moves : list (list Q)) s :
  _touchStartX s = None →
  run ((TouchMove <$> moves) ++ [TouchEnd]) s = s.
Proof.
  intros H. induction moves as [|ts moves IH]; simpl.
  - unfold _handleTouchEnd. by rewrite H.
  - by rewrite touch_move_no_start.
Qed.

(** X18.  A cancelled gesture never navigates: after [touchcancel],
    moves are ignored and touch end does nothing, whatever the touch start
    recorded. *)
Theorem cancelled_gesture s (touches : list Q) (moves : list (list Q)) :
  run (TouchStart touches :: TouchCancel :: (TouchMove <$> moves) ++ [TouchEnd]) s
  = with_touch None 0%Q s.
Proof.
  change (run (TouchStart touches :: TouchCancel :: (TouchMove <$> moves) ++ [TouchEnd]) s)
    with (run ((TouchMove <$> moves) ++ [TouchEnd])
            (_handleTouchCancel (_handleTouchStart touches s))).
  rewrite run_moves_no_start by done.
  unfold _handleTouchStart. by destruct touches as [|x [|]].
Qed.

(** ** Listeners *)

Lemma bind_indicators_spec (i n : nat) (reg : list Listener) :
  bind_indicators i n reg =
  (Returned tt,
   reg ++ ((λ j, mkListener (OnIndicator j) "click" (DoGoTo (Z.of_nat j)) false)
             <$> seq i n)).
Proof.
  revert i reg. induction n as [|n IH]; intros i reg; simpl.
  - by rewrite app_nil_r.
  - unfold mbind, Init_bind, bind, addEventListener.
    rewrite IH. by rewrite <- app_assoc.
Qed.

Lemma _bindEvents_fields el reg :
  _bindEvents (fields el) reg = (Returned tt, reg ++ listeners_of el).
Proof.
  unfold _bindEvents, listeners_of, mbind, Init_bind, bind,
    addEventListener_opt, addEventListener, mret, Init_ret, ret.
  change (nextBtn (fields el)) with (q_nextBtn el).
  change (prevBtn (fields el)) with (q_prevBtn el).
  change (indicators (fields el)) with (q_indicators el).
  destruct (q_nextBtn el), (q_prevBtn el);
    rewrite bind_indicators_spec; simpl;
    rewrite <- ?app_assoc; simpl; rewrite ?app_nil_r; reflexivity.
Qed.

Lemma constructor_element document el reg :
  constructor document (ArgHTMLElement el) reg =
  (Returned (new el), reg ++ listeners_of el).
Proof.
  unfold constructor, mbind, Init_bind, bind, resolve_root, mret, Init_ret, ret.
  by rewrite _bindEvents_fields.
Qed.

Lemma on_document_listeners el :
  filter (λ l, on_document l = true) (listeners_of el) =
  [ mkListener OnDocument "keydown" HandleKeyDown false;
    mkListener OnDocument "keyup" HandleKeyUp false ].
Proof.
  unfold listeners_of. rewrite !filter_app.
  assert (filter (λ l, on_document l = true)
            ((λ i, mkListener (OnIndicator i) "click" (DoGoTo (Z.of_nat i)) false)
               <$> seq 0 (length (q_indicators el))) = []) as ->.
  { generalize 0%nat. induction (length (q_indicators el)) as [|n IH];
      intros k; simpl; [done|].
    rewrite filter_cons_False by done. apply IH. }
  by destruct (q_nextBtn el), (q_prevBtn el).
Qed.

(** X19.  A successful construction, from an element or from a selector
    that matches it, returns an instance and appends its listeners to the
    registry, keeping those already there: six plus one per indicator and
    per existing control, two of them on the document.  For a root with an
    item the instance is the one [update()] has synchronized.  A malformed
    selector throws before anything is registered. *)
Theorem constructor_registers (document : Document) el (reg : list Listener) :
  (∃ s, constructor document (ArgHTMLElement el) reg =
          (Returned s, reg ++ listeners_of el) ∧
        ((1 <= length (q_items el))%nat → s = new el ∧ synced s)) ∧
  (∀ selector, document selector = Matched el →
     constructor document (ArgString selector) reg =
     constructor document (ArgHTMLElement el) reg) ∧
  (∀ selector, document selector = InvalidSelector →
     constructor document (ArgString selector) reg =
     (Threw (SyntaxError selector), reg)) ∧
  length (listeners_of el) =
    (6 + length (q_indicators el) + (if q_nextBtn el then 1 else 0)
       + (if q_prevBtn el then 1 else 0))%nat ∧
  filter (λ l, on_document l = true) (listeners_of el) =
    [ mkListener OnDocument "keydown" HandleKeyDown false;
      mkListener OnDocument "keyup" HandleKeyUp false ].
Proof.
  split; [|split; [|split; [|split]]].
  - exists (new el). split; [apply constructor_element|].
    intros HN. split; [done|by apply synced_new].
  - intros selector Hq.
    unfold constructor, mbind, Init_bind, bind, resolve_root. by rewrite Hq.
  - intros selector Hq.
    unfold constructor, mbind, Init_bind, bind, resolve_root. by rewrite Hq.
  - unfold listeners_of. rewrite !length_app, length_fmap, length_seq.
    destruct (q_nextBtn el), (q_prevBtn el); simpl; lia.
  - apply on_document_listeners.
Qed.

Lemma constructor_registers_witness :
  let el := plain_root 2 in
  let document : Document :=
    λ sel, if bool_decide (sel = ".slider-3d") then Matched el else NoMatch in
  constructor document (ArgString ".slider-3d") [] =
  constructor document (ArgHTMLElement el) [] ∧
  length (listeners_of el) = 10%nat.
Proof.
  intros el document. split; [|reflexivity].
  apply (proj1 (proj2 (constructor_registers document el []))). reflexivity.
Defined.

(** X20.  The [DOMContentLoaded] listener constructs one slider per
    matched [HTMLElement], in order and without throwing, and leaves two
    document-level key listeners per slider: a key press reaches every
    slider of the page. *)
Theorem auto_init_html (document : Document) (els : list HTMLElement)
    (reg : list Listener) :
  (∃ ss, auto_init document (IsHTMLElement <$> els) reg =
           (Returned ss, reg ++ concat (listeners_of <$> els)) ∧
         length ss = length els) ∧
  length (filter (λ l, on_document l = true) (concat (listeners_of <$> els))) =
    (2 * length els)%nat.
Proof.
  split.
  - exists (new <$> els). split; [|by rewrite length_fmap].
    revert reg. induction els as [|el els IH]; intros reg; simpl.
    + by rewrite app_nil_r.
    + unfold mbind, Init_bind, bind. rewrite constructor_element, IH.
      by rewrite <- app_assoc.
  - induction els as [|el els IH]; [done|].
    change (concat (listeners_of <$> el :: els))
      with (listeners_of el ++ concat (listeners_of <$> els)).
    rewrite filter_app, length_app, on_document_listeners, IH.
    simpl length. lia.
Qed.

(** X21.  If a matched element is not an [HTMLElement], the
    [DOMContentLoaded] listener throws there: the sliders before it stay
    registered and the elements after it are never initialised. *)
Theorem auto_init_stops (document : Document) (els : list HTMLElement)
    (rest : list Element) (reg : list Listener) :
  auto_init document ((IsHTMLElement <$> els) ++ OtherElement :: rest) reg =
  (Threw RequiresSelectorOrElement, reg ++ concat (listeners_of <$> els)).
Proof.
  revert reg. induction els as [|el els IH]; intros reg; simpl.
  - by rewrite app_nil_r.
  - unfold mbind, Init_bind, bind. rewrite constructor_element, IH.
    by rewrite <- app_assoc.
Qed.

(** ** More on the cards *)

Lemma flip_flipped (classes : gset string) :
  "flipped" ∈ classes → on_equation_card_click classes = classes ∖ {[ "flipped" ]}.
Proof. intros H. unfold on_equation_card_click. by rewrite bool_decide_true. Qed.

Lemma flip_unflipped (classes : gset string) :
  "flipped" ∉ classes → on_equation_card_click classes = {[ "flipped" ]} ∪ classes.
Proof. intros H. unfold on_equation_card_click. by rewrite bool_decide_false. Qed.

(** X22.  A click on an equation card flips [flipped] and nothing else;
    two clicks restore the class list. *)
Theorem equation_card_flip (classes : gset string) :
  on_equation_card_click (on_equation_card_click classes) = classes ∧
  ("flipped" ∈ on_equation_card_click classes ↔ "flipped" ∉ classes) ∧
  (∀ c, c ≠ "flipped" → c ∈ on_equation_card_click classes ↔ c ∈ classes).
Proof.
  destruct (decide ("flipped" ∈ classes)) as [Hin|Hnin].
  - rewrite (flip_flipped classes Hin).
    rewrite flip_unflipped by set_solver. split; [|set_solver].
    apply set_eq. intros c. destruct (decide (c = "flipped")); set_solver.
  - rewrite (flip_unflipped classes Hnin).
    rewrite flip_flipped by set_solver. set_solver.
Qed.

Lemma toggleCard_flips c :
  "expanded" ∈ classList (toggleCard c) ↔ "expanded" ∉ classList c.
Proof.
  unfold toggleCard. case_bool_decide; simpl; set_solver.
Qed.

Lemma prop_scrollHeight_css v rs :
  prop_scrollHeight (css_max_height v rs) = prop_scrollHeight rs.
Proof. by destruct rs. Qed.

(** X23.  A click whose closest concept card is another card is ignored
    by the guarded handler of js/index.js for this card, while the
    unguarded handler of the second script toggles the card all the
    same. *)
Theorem guarded_click_rejects event c :
  closest_concept_card event ≠ Some (card_id c) →
  on_concept_card_click event c = c ∧
  on_concept_card_click_unguarded event c ≠ c ∧
  ("expanded" ∈ classList (on_concept_card_click_unguarded event c) ↔
   "expanded" ∉ classList c).
Proof.
  intros Hne. split; [|split].
  - unfold on_concept_card_click, shouldHandleClick.
    by rewrite bool_decide_false.
  - unfold on_concept_card_click_unguarded. intros Heq.
    pose proof (toggleCard_flips c) as Hf. rewrite Heq in Hf. tauto.
  - apply toggleCard_flips.
Qed.

Lemma guarded_click_rejects_witness :
  let outer := mkCard 1 ∅ [mkRegion 80 None; mkRegion 40 None] in
  let event := mkClickEvent (Some 2%nat) in
  on_concept_card_click event outer = outer ∧
  on_concept_card_click_unguarded event outer ≠ outer.
Proof.
  intros outer event.
  assert (H : closest_concept_card event ≠ Some (card_id outer)) by discriminate.
  destruct (guarded_click_rejects event outer H) as (H1 & H2 & _).
  split; [exact H1|exact H2].
Defined.

(** X24.  Two toggles of a card restore its class list, whatever the
    starting state, and never change the card's identity or a region's
    scroll height; started expanded they leave [max-height] at the first
    region's height on every region, started collapsed at [0px]; a card
    without content region only has its class toggled. *)
Theorem toggleCard_twice c :
  card_id (toggleCard (toggleCard c)) = card_id c ∧
  classList (toggleCard (toggleCard c)) = classList c ∧
  scrollHeight <$> variables (toggleCard (toggleCard c))
    = scrollHeight <$> variables c ∧
  ("expanded" ∈ classList c →
   variables (toggleCard (toggleCard c)) =
   css_max_height (px (prop_scrollHeight (variables c))) (variables c)) ∧
  ("expanded" ∉ classList c →
   variables (toggleCard (toggleCard c)) = css_max_height "0px" (variables c)) ∧
  (variables c = [] → variables (toggleCard c) = []).
Proof.
  assert (Hsh : ∀ v rs, scrollHeight <$> css_max_height v rs = scrollHeight <$> rs).
  { intros v rs. unfold css_max_height. rewrite <- list_fmap_compose.
    by apply list_fmap_ext. }
  destruct (decide ("expanded" ∈ classList c)) as [Hin|Hnin].
  - rewrite (toggleCard_expanded c Hin).
    assert (Hn : "expanded" ∉ classList (collapseCard c)) by (simpl; set_solver).
    rewrite (toggleCard_collapsed _ Hn).
    unfold expandCard, collapseCard; simpl.
    rewrite prop_scrollHeight_css, css_max_height_twice, !Hsh.
    repeat split; try done.
    + apply set_eq. intros x. destruct (decide (x = "expanded")); set_solver.
    + intros ->. done.
  - rewrite (toggleCard_collapsed c Hnin).
    assert (Hy : "expanded" ∈ classList (expandCard c)) by (simpl; set_solver).
    rewrite (toggleCard_expanded _ Hy).
    unfold expandCard, collapseCard; simpl.
    rewrite css_max_height_twice, !Hsh.
    repeat split; try done.
    + set_solver.
    + intros ->. done.
Qed.

Lemma toggleCard_twice_witness :
  let c := mkCard 0 {[ "expanded" ]} [mkRegion 120 (Some "120px"); mkRegion 7 None] in
  variables (toggleCard (toggleCard c)) =
  [mkRegion 120 (Some "120px"); mkRegion 7 (Some "120px")].
Proof.
  intros c.
  assert (H : "expanded" ∈ classList c).
  { change ("expanded" ∈ ({[ "expanded" ]} : gset string)).
    by apply elem_of_singleton_2. }
  rewrite (proj1 (proj2 (proj2 (proj2 (toggleCard_twice c)))) H).
  reflexivity.
Defined.

Lemma equation_card_flip_witness :
  let classes : gset string := {[ "equation-card" ]} in
  "equation-card" ∈ on_equation_card_click classes.
Proof.
  intros classes.
  apply (proj2 (proj2 (equation_card_flip classes)) "equation-card");
    [discriminate|].
  by apply elem_of_singleton_2.
Defined.
